(** * Tag normalization rules: a shallow embedding of the two resolvers

    The development follows the three Python modules of the repository:
    [delete_cache.py] (the persisted invalid-tag cache),
    [first_implementation.py] (resolver with the Tanimoto scorer) and
    [second_implementation.py] (resolver on top of [difflib]).

    Conventions of the embedding.
    - A Python [str] is the list of its code points ([pystr]).
    - A Python [dict] is an insertion-ordered association list ([odict]):
      assignment to an existing key keeps the key's position, assignment
      to a new key appends.
    - [datetime] values are counted in microseconds ([Z]); the ISO-8601
      strings of the cache file are identified with the instants they
      denote (the file is assumed to hold well-formed naive timestamps, as
      written by [save_cache]).
    - Floating-point scores are exact rationals ([Q]).  Both scorers divide
      two integers bounded by the token lengths, and the division is
      correctly rounded, so that the comparisons of the source agree with
      the rational ones for all tokens shorter than 2^26 characters.
    - [print] is not modelled, except for a trace of the tokens handed to
      [find_best_match].
    - The few facts of the Unicode database the code relies on
      ([str.lower], [str.isupper], [str.isspace]) are a parameter
      ([Unicode]); a concrete table for Basic Latin and Cyrillic is given
      to run the examples of the repository. *)

From Stdlib Require Import String Ascii QArith.
From stdpp Require Import base option list numbers gmap.

Local Open Scope nat_scope.

(** ** Python strings *)

Definition code := N.
Definition pystr := list code.

(** Decoding of the UTF-8 bytes of a Rocq string literal, so that Python
    literals can be written as they stand in the source. *)
Fixpoint utf8_cont (n : nat) (acc : N) (bs : list N) : N * list N :=
  match n, bs with
  | S n', b :: bs' => utf8_cont n' (acc * 64 + N.land b 63)%N bs'
  | _, _ => (acc, bs)
  end.

Fixpoint utf8_decode_bytes (fuel : nat) (bs : list N) : pystr :=
  match fuel, bs with
  | S fuel', b :: bs' =>
      let '(c, rest) :=
        if (b <? 128)%N then (b, bs')
        else if (b <? 224)%N then utf8_cont 1 (N.land b 31) bs'
        else if (b <? 240)%N then utf8_cont 2 (N.land b 15) bs'
        else utf8_cont 3 (N.land b 7) bs' in
      c :: utf8_decode_bytes fuel' rest
  | _, _ => []
  end.

Definition py (s : String.string) : pystr :=
  let bs := List.map Ascii.N_of_ascii (String.list_ascii_of_string s) in
  utf8_decode_bytes (length bs) bs.
Arguments py s%_string.

(** The slice of the Unicode database used by the code. *)
Record Unicode := {
  lower : pystr -> pystr;          (* str.lower *)
  isupper : code -> bool;          (* str.isupper on a one-character string *)
  isspace : code -> bool;          (* membership in the set str.strip removes *)
  lower_nil : lower [] = []
}.

(** Truthiness of a string and of an optional string ([if s:]). *)
Definition truthy (s : pystr) : bool :=
  match s with [] => false | _ :: _ => true end.

Definition truthy_opt (o : option pystr) : bool :=
  match o with Some s => truthy s | None => false end.

(** [s.replace(old, new)] for one-character [old] and [new]. *)
Definition replace (old new : code) (s : pystr) : pystr :=
  List.map (fun c => if (c =? old)%N then new else c) s.

Definition str_eqb (a b : pystr) : bool := bool_decide (a = b).

Fixpoint is_prefix (p s : pystr) : bool :=
  match p, s with
  | [], _ => true
  | c :: p', d :: s' => (c =? d)%N && is_prefix p' s'
  | _ :: _, [] => false
  end.

(** [s.split(sep)] for a non-empty separator: the leftmost occurrences of
    [sep] cut the string; [skip] counts the characters of a separator that
    are still to be passed over, [cur] is the piece being read, reversed. *)
Fixpoint split_go (sep s : pystr) (skip : nat) (cur : pystr) : list pystr :=
  match s with
  | [] => [rev cur]
  | c :: s' =>
      match skip with
      | S k => split_go sep s' k cur
      | O =>
          if is_prefix sep s
          then rev cur :: split_go sep s' (length sep - 1) []
          else split_go sep s' 0 (c :: cur)
      end
  end.

Definition split (sep s : pystr) : list pystr := split_go sep s 0 [].

Fixpoint lstrip (sp : code -> bool) (s : pystr) : pystr :=
  match s with
  | c :: s' => if sp c then lstrip sp s' else s
  | [] => []
  end.

(** [s.strip()] *)
Definition strip (sp : code -> bool) (s : pystr) : pystr :=
  rev (lstrip sp (rev (lstrip sp s))).

(** [sep.join(l)] *)
Fixpoint join (sep : pystr) (l : list pystr) : pystr :=
  match l with
  | [] => []
  | [x] => x
  | x :: l' => x ++ sep ++ join sep l'
  end.

(** Lexicographic order of code points: [a < b] on Python strings. *)
Fixpoint str_ltb (a b : pystr) : bool :=
  match a, b with
  | _, [] => false
  | [], _ :: _ => true
  | c :: a', d :: b' => (c <? d)%N || ((c =? d)%N && str_ltb a' b')
  end.

(** ** Insertion-ordered dictionaries *)

Module odict.
Section ops.
Context {V : Type}.

Fixpoint get (k : pystr) (d : list (pystr * V)) : option V :=
  match d with
  | [] => None
  | (k', v) :: d' => if str_eqb k k' then Some v else get k d'
  end.

(** [d[k] = v] *)
Fixpoint set (k : pystr) (v : V) (d : list (pystr * V)) : list (pystr * V) :=
  match d with
  | [] => [(k, v)]
  | (k', v') :: d' =>
      if str_eqb k k' then (k', v) :: d' else (k', v') :: set k v d'
  end.

(** [del d[k]] (on a key of [d]) *)
Fixpoint del (k : pystr) (d : list (pystr * V)) : list (pystr * V) :=
  match d with
  | [] => []
  | (k', v') :: d' =>
      if str_eqb k k' then del k d' else (k', v') :: del k d'
  end.

Definition keys (d : list (pystr * V)) : list pystr := List.map fst d.
Definition values (d : list (pystr * V)) : list V := List.map snd d.
Definition mem (k : pystr) (d : list (pystr * V)) : bool :=
  match get k d with Some _ => true | None => false end.
End ops.
Abbreviation t V := (list (pystr * V)).
End odict.

(** [list(collections.OrderedDict.fromkeys(l))] *)
Definition fromkeys (l : list pystr) : list pystr :=
  odict.keys (fold_left (fun d k => odict.set k tt d) l []).

(** A table for Basic Latin and Cyrillic (U+0400..U+045F) letters; on
    strings of these letters, digits and ASCII punctuation it agrees with
    the Unicode database of CPython. *)
Definition lower_code (c : code) : code :=
  if ((65 <=? c) && (c <=? 90))%N then (c + 32)%N
  else if ((1040 <=? c) && (c <=? 1071))%N then (c + 32)%N
  else if ((1024 <=? c) && (c <=? 1039))%N then (c + 80)%N
  else c.

Definition isupper_code (c : code) : bool :=
  ((65 <=? c) && (c <=? 90))%N || ((1024 <=? c) && (c <=? 1071))%N.

Definition isspace_code (c : code) : bool :=
  ((9 <=? c) && (c <=? 13))%N || ((28 <=? c) && (c <=? 32))%N
  || (c =? 133)%N || (c =? 160)%N || (c =? 5760)%N
  || ((8192 <=? c) && (c <=? 8202))%N || (c =? 8232)%N || (c =? 8233)%N
  || (c =? 8239)%N || (c =? 8287)%N || (c =? 12288)%N.

Definition latin_cyrillic : Unicode :=
  {| lower := List.map lower_code;
     isupper := isupper_code;
     isspace := isspace_code;
     lower_nil := eq_refl |}.

(** ** Exceptions *)

Inductive exn := ZeroDivisionError.

Inductive result (A : Type) :=
| Ok (a : A)
| Raise (e : exn).
Arguments Ok {A} a.
Arguments Raise {A} e.

#[global] Instance result_ret : MRet result := fun A a => Ok a.
#[global] Instance result_bind : MBind result := fun A B f r =>
  match r with
  | Ok a => f a
  | Raise e => Raise e
  end.
#[global] Instance result_fmap : FMap result := fun A B f r =>
  match r with
  | Ok a => Ok (f a)
  | Raise e => Raise e
  end.

(** ** delete_cache.py *)

Module delete_cache.

(** The content of [CACHE_FILE]: a JSON object, member by member. *)
Definition json_object := list (pystr * Z).

Definition CACHE_EXPIRATION_DAYS : Z := 14.

(** [timedelta(days=d)], in microseconds. *)
Definition timedelta_days (d : Z) : Z := (d * 86400 * 1000000)%Z.

(** [load_cache()]: the file may be absent; [json.load] assigns the
    members of the object one after the other. *)
Definition load_cache (file : option json_object) : odict.t Z :=
  match file with
  | Some members => fold_left (fun d kv => odict.set kv.1 kv.2 d) members []
  | None => []
  end.

(** [save_cache(invalid_tags)]: the new content of the file. *)
Definition save_cache (invalid_tags : odict.t Z) : json_object := invalid_tags.

(** [clean_cache(invalid_tags)], with [current_time] the reading of
    [datetime.now()]. *)
Definition clean_cache (current_time : Z) (invalid_tags : odict.t Z) : odict.t Z :=
  fold_left
    (fun d tag =>
       match odict.get tag d with
       | Some stamp =>
           if (timedelta_days CACHE_EXPIRATION_DAYS <? current_time - stamp)%Z
           then odict.del tag d else d
       | None => d
       end)
    (odict.keys invalid_tags) invalid_tags.

End delete_cache.

(** ** Rule table and the parts shared by the two modules

    [AllowedTagRecord], [normalize_tag], [split_composite_tag] and
    [apply_tag_rules] are the same, statement for statement, in
    [first_implementation.py] and [second_implementation.py]; they are
    embedded once, [apply_tag_rules] taking the module's
    [find_best_match] as an argument. *)

Record AllowedTagRecord := {
  allowed_name : pystr;
  synonyms : option pystr;
  immutable : bool;
  separated : bool
}.

Definition rule (name : pystr) (syn : option pystr) : AllowedTagRecord :=
  {| allowed_name := name; synonyms := syn; immutable := false; separated := false |}.

Definition SPACE : code := 32%N.
Definition HYPHEN : code := 45%N.
Definition UNDERSCORE : code := 95%N.

Definition normalize_tag (U : Unicode) (tag : pystr) : pystr :=
  lower U (replace HYPHEN UNDERSCORE (replace SPACE UNDERSCORE tag)).

(** The scan of [split_composite_tag]: [(parts, current_part)] after one
    more character. *)
Definition split_step (U : Unicode) (st : list pystr * pystr) (char : code)
  : list pystr * pystr :=
  let '(parts, current_part) := st in
  if isupper U char && truthy current_part
  then (parts ++ [current_part], [char])
  else (parts, current_part ++ [char]).

Definition composite_parts (U : Unicode) (tag : pystr) : list pystr :=
  let '(parts, current_part) := fold_left (split_step U) tag ([], []) in
  if truthy current_part then parts ++ [current_part] else parts.

Definition split_composite_tag (U : Unicode) (tag : pystr)
    (allowed_tags : odict.t pystr) : list pystr :=
  omap (fun part => odict.get (normalize_tag U part) allowed_tags)
       (composite_parts U tag).

(** The Synonym Index ([allowed_tags_with_synonyms]) built at the start of
    [apply_tag_rules]. *)
Definition allowed_tags_of (U : Unicode) (rules : list AllowedTagRecord)
  : odict.t pystr :=
  fold_left
    (fun d record => odict.set (normalize_tag U (allowed_name record)) (allowed_name record) d)
    rules [].

Definition add_synonyms (U : Unicode) (d : odict.t pystr) (record : AllowedTagRecord)
  : odict.t pystr :=
  match synonyms record with
  | Some syns =>
      if truthy syns
      then fold_left
             (fun d synonym => odict.set (normalize_tag U synonym) (allowed_name record) d)
             (split (py ", ") syns) d
      else d
  | None => d
  end.

Definition allowed_tags_with_synonyms_of (U : Unicode) (rules : list AllowedTagRecord)
  : odict.t pystr :=
  fold_left (add_synonyms U) rules (allowed_tags_of U rules).

(** The type of [find_best_match]. *)
Definition matcher := pystr -> odict.t pystr -> result (option pystr).

(** The variables of the token loop of [apply_tag_rules]; [ticks] counts
    the calls of [datetime.now()] made so far, [fuzzy_calls] records the
    tokens handed to [find_best_match]. *)
Record loop_state := {
  result_tags : list pystr;
  invalid_tags_cache : odict.t Z;
  ticks : nat;
  fuzzy_calls : list pystr
}.

(** What a call returns and leaves behind. *)
Record outcome := {
  final_tags_str : pystr;
  saved_cache : delete_cache.json_object;
  fuzzy_trace : list pystr
}.

(** [result_tags.append(name)] / [result_tags.extend(names)] *)
Definition add_results (names : list pystr) (st : loop_state) : loop_state :=
  {| result_tags := result_tags st ++ names;
     invalid_tags_cache := invalid_tags_cache st;
     ticks := ticks st;
     fuzzy_calls := fuzzy_calls st |}.

(** The entry into [find_best_match(tag, ...)] *)
Definition log_fuzzy (tag : pystr) (st : loop_state) : loop_state :=
  {| result_tags := result_tags st;
     invalid_tags_cache := invalid_tags_cache st;
     ticks := ticks st;
     fuzzy_calls := fuzzy_calls st ++ [tag] |}.

(** [invalid_tags_cache[tag] = datetime.now().isoformat()] *)
Definition remember (now : nat -> Z) (tag : pystr) (st : loop_state) : loop_state :=
  {| result_tags := result_tags st;
     invalid_tags_cache := odict.set tag (now (ticks st)) (invalid_tags_cache st);
     ticks := S (ticks st);
     fuzzy_calls := fuzzy_calls st |}.

Section resolver.
Variable U : Unicode.
Variable find_best_match : matcher.
(** [now n] is the reading of the [n]-th call of [datetime.now()]. *)
Variable now : nat -> Z.

(** The body of [for tag in tags.split(";")]. *)
Definition process_tag (index : odict.t pystr) (delayed_clean : bool)
    (st : loop_state) (tag : pystr) : result loop_state :=
  let tag := strip (isspace U) tag in
  let normalized_tag := normalize_tag U tag in
  match odict.get normalized_tag index with
  | Some name => Ok (add_results [name] st)
  | None =>
      let split_tags := split_composite_tag U tag index in
      match split_tags with
      | _ :: _ => Ok (add_results split_tags st)
      | [] =>
          best_match ← find_best_match tag index;
          let st := log_fuzzy tag st in
          if truthy_opt best_match
          then Ok (add_results (option_list best_match) st)
          else if delayed_clean
          then Ok (remember now tag st)
          else Ok st
      end
  end.

Fixpoint process_tags (index : odict.t pystr) (delayed_clean : bool)
    (st : loop_state) (tags : list pystr) : result loop_state :=
  match tags with
  | [] => Ok st
  | tag :: rest =>
      st' ← process_tag index delayed_clean st tag;
      process_tags index delayed_clean st' rest
  end.

(** The reconciliation loop run when [delayed_clean] is set. *)
Definition reconcile (results : list pystr) (cache : odict.t Z) : odict.t Z :=
  fold_left
    (fun d invalid_tag =>
       if bool_decide (invalid_tag ∈ results) then odict.del invalid_tag d else d)
    (odict.keys cache) cache.

(** The state at the start of the loop: the cache is loaded and cleaned
    (first reading of the clock), [result_tags = []]. *)
Definition initial_state (file : option delete_cache.json_object) : loop_state :=
  let loaded := delete_cache.load_cache file in
  let cleaned := delete_cache.clean_cache (now 0) loaded in
  {| result_tags := []; invalid_tags_cache := cleaned; ticks := 1; fuzzy_calls := [] |}.

Definition apply_tag_rules (file : option delete_cache.json_object)
    (tags : pystr) (rules : list AllowedTagRecord) (delayed_clean : bool)
  : result outcome :=
  let index := allowed_tags_with_synonyms_of U rules in
  st ← process_tags index delayed_clean (initial_state file) (split (py ";") tags);
  let reconciled :=
    if delayed_clean then reconcile (result_tags st) (invalid_tags_cache st)
    else invalid_tags_cache st in
  let final_tags := fromkeys (result_tags st) in
  Ok {| final_tags_str := join (py "; ") final_tags;
        saved_cache := delete_cache.save_cache reconciled;
        fuzzy_trace := fuzzy_calls st |}.
End resolver.

(** ** first_implementation.py *)

Module first_implementation.

(** The inner loop of [is_tokens_fuzzy_equal]: the first position [j]
    of [second_token] that is not used yet and holds [c] is marked. *)
Fixpoint pair_off (c : code) (second_token : pystr) (used_tokens : list bool)
  : option (list bool) :=
  match second_token, used_tokens with
  | d :: second', u :: used' =>
      if negb u && (c =? d)%N then Some (true :: used')
      else cons u <$> pair_off c second' used'
  | _, _ => None
  end.

(** The outer loop: [(equal_subtokens_count, used_tokens)]. *)
Definition count_equal (first_token second_token : pystr) : nat * list bool :=
  fold_left
    (fun st c =>
       match pair_off c second_token st.2 with
       | Some used => (S st.1, used)
       | None => st
       end)
    first_token (0, replicate (length second_token) false).

(** [n / d] on integers. *)
Definition truediv (n d : Z) : result Q :=
  if (d =? 0)%Z then Raise ZeroDivisionError else Ok (n # Z.to_pos d)%Q.

Definition is_tokens_fuzzy_equal (first_token second_token : pystr) : result Q :=
  let equal_subtokens_count := Z.of_nat (count_equal first_token second_token).1 in
  let subtoken_first_count := Z.of_nat (length first_token) in
  let subtoken_second_count := Z.of_nat (length second_token) in
  truediv equal_subtokens_count
          (subtoken_first_count + subtoken_second_count - equal_subtokens_count)%Z.

(** The loop of [find_best_match] over the keys of the index. *)
Fixpoint best_loop (normalized_tag : pystr) (keys : list pystr)
    (best_match : option pystr) (best_score : Q) : result (option pystr * Q) :=
  match keys with
  | [] => Ok (best_match, best_score)
  | allowed_tag :: rest =>
      score ← is_tokens_fuzzy_equal normalized_tag allowed_tag;
      if Qlt_le_dec best_score score
      then best_loop normalized_tag rest (Some allowed_tag) score
      else best_loop normalized_tag rest best_match best_score
  end.

Definition threshold : Q := (6 # 10)%Q.

Definition find_best_match (U : Unicode) : matcher := fun tag index =>
  let normalized_tag := normalize_tag U tag in
  best ← best_loop normalized_tag (odict.keys index) None threshold;
  if truthy_opt best.1
  then Ok (best_match ← best.1; odict.get best_match index)
  else Ok None.

Definition apply_tag_rules (U : Unicode) := apply_tag_rules U (find_best_match U).

End first_implementation.

(** ** difflib (Python standard library), as far as
    [get_close_matches(word, possibilities, n=1, cutoff=0.6)] runs it

    [SequenceMatcher] is created with [isjunk=None] and [autojunk=True]:
    no element is junk, elements of [b] that occur more than
    [len(b) // 100 + 1] times are "popular" when [len(b) >= 200]. *)

Module difflib.

(** [__chain_b]: the positions of every element of [b], in increasing
    order, popular elements removed. *)
Definition chain_b (b : pystr) : gmap code (list nat) :=
  let b2j :=
    fold_left
      (fun (m : gmap code (list nat)) ie =>
         <[ie.2 := default [] (m !! ie.2) ++ [ie.1]]> m)
      (imap pair b) ∅ in
  let n := length b in
  if 200 <=? n
  then let ntest := n / 100 + 1 in
       filter (fun kv => length kv.2 <= ntest) b2j
  else b2j.

Definition Match := (nat * nat * nat)%type.
Definition size (m : Match) : nat := m.2.

Section matcher.
Variables a b : pystr.
Variable b2j : gmap code (list nat).

(** [for j in b2j.get(a[i], nothing)] inside [find_longest_match] *)
Fixpoint scan_row (blo bhi i : nat) (js : list nat) (j2len newj2len : gmap nat nat)
    (best : Match) : gmap nat nat * Match :=
  match js with
  | [] => (newj2len, best)
  | j :: js' =>
      if j <? blo then scan_row blo bhi i js' j2len newj2len best
      else if bhi <=? j then (newj2len, best)
      else
        let k := match j with
                 | O => 0
                 | S j' => default 0 (j2len !! j')
                 end + 1 in
        let newj2len := <[j := k]> newj2len in
        let best := if size best <? k then (i + 1 - k, j + 1 - k, k) else best in
        scan_row blo bhi i js' j2len newj2len best
  end.

(** [for i in range(alo, ahi)], the state being [(j2len, best)] *)
Definition scan_rows (alo ahi blo bhi : nat) : Match :=
  (fold_left
     (fun (st : gmap nat nat * Match) i =>
        let js := match a !! i with
                  | Some elt => default [] (b2j !! elt)
                  | None => []
                  end in
        scan_row blo bhi i js st.1 ∅ st.2)
     (seq alo (ahi - alo)) (∅, (alo, blo, 0))).2.

Definition same_at (i j : nat) : bool :=
  match a !! i, b !! j with
  | Some x, Some y => (x =? y)%N
  | _, _ => false
  end.

(** [while besti > alo and bestj > blo and a[besti-1] == b[bestj-1]] *)
Fixpoint extend_left (alo blo besti bestj bestsize : nat) : Match :=
  match besti, bestj with
  | S i', S j' =>
      if (alo <? besti) && (blo <? bestj) && same_at i' j'
      then extend_left alo blo i' j' (bestsize + 1)
      else (besti, bestj, bestsize)
  | _, _ => (besti, bestj, bestsize)
  end.

(** [while besti+bestsize < ahi and bestj+bestsize < bhi and
    a[besti+bestsize] == b[bestj+bestsize]]; [room] bounds the number
    of turns by [ahi - (besti+bestsize)]. *)
Fixpoint extend_right (room ahi bhi besti bestj bestsize : nat) : Match :=
  match room with
  | S room' =>
      if (besti + bestsize <? ahi) && (bestj + bestsize <? bhi)
         && same_at (besti + bestsize) (bestj + bestsize)
      then extend_right room' ahi bhi besti bestj (bestsize + 1)
      else (besti, bestj, bestsize)
  | O => (besti, bestj, bestsize)
  end.

(** [find_longest_match(alo, ahi, blo, bhi)]; the two loops over junk
    never turn, [bjunk] being empty. *)
Definition find_longest_match (alo ahi blo bhi : nat) : Match :=
  let '(besti, bestj, bestsize) := scan_rows alo ahi blo bhi in
  let '(besti, bestj, bestsize) := extend_left alo blo besti bestj bestsize in
  extend_right (ahi - (besti + bestsize)) ahi bhi besti bestj bestsize.

(** The [while queue:] loop of [get_matching_blocks]; the queue is
    kept with its last element first, [fuel] bounds the turns. *)
Fixpoint blocks_loop (fuel : nat) (queue : list (nat * nat * nat * nat))
    (matching_blocks : list Match) : list Match :=
  match fuel, queue with
  | S fuel', (alo, ahi, blo, bhi) :: queue =>
      let x := find_longest_match alo ahi blo bhi in
      let '(i, j, k) := x in
      if (0 <? k)
      then
        let queue := if (alo <? i) && (blo <? j)
                     then (alo, i, blo, j) :: queue else queue in
        let queue := if (i + k <? ahi) && (j + k <? bhi)
                     then (i + k, ahi, j + k, bhi) :: queue else queue in
        blocks_loop fuel' queue (matching_blocks ++ [x])
      else blocks_loop fuel' queue matching_blocks
  | _, _ => matching_blocks
  end.

(** The blocks found by [get_matching_blocks], before they are sorted
    and adjacent ones merged (neither changes the sum of the sizes,
    which is all [ratio] uses).  Every turn of the loop removes a
    range of [a] from the queue and adds at most two shorter, disjoint
    ones, so that [2 * len(a) + 1] turns empty the queue. *)
Definition matching_blocks : list Match :=
  blocks_loop (2 * length a + 1) [(0, length a, 0, length b)] [].

(** [_calculate_ratio(matches, length)] *)
Definition calculate_ratio (matches len : nat) : Q :=
  match len with
  | O => 1%Q
  | S _ => (Z.of_nat (2 * matches) # Pos.of_nat len)%Q
  end.

Definition ratio : Q :=
  calculate_ratio (sum_list (size <$> matching_blocks)) (length a + length b).

(** [quick_ratio()] *)
Definition fullbcount : gmap code Z :=
  fold_left (fun (m : gmap code Z) elt => <[elt := (default 0 (m !! elt) + 1)%Z]> m) b ∅.

Definition quick_matches : nat :=
  (fold_left
     (fun (st : gmap code Z * nat) elt =>
        let numb := match st.1 !! elt with
                    | Some n => n
                    | None => default 0%Z (fullbcount !! elt)
                    end in
        (<[elt := (numb - 1)%Z]> st.1,
         if (0 <? numb)%Z then st.2 + 1 else st.2))
     a (∅, 0)).2.

Definition quick_ratio : Q :=
  calculate_ratio quick_matches (length a + length b).

(** [real_quick_ratio()] *)
Definition real_quick_ratio : Q :=
  calculate_ratio (length a `min` length b) (length a + length b).
End matcher.

(** [(s1, x1) > (s2, x2)] on pairs of a score and a string. *)
Definition pair_gtb (p1 p2 : Q * pystr) : bool :=
  match (p1.1 ?= p2.1)%Q with
  | Gt => true
  | Eq => str_ltb p2.2 p1.2
  | Lt => false
  end.

(** [max(it, default=sentinel)]: the first greatest element. *)
Definition max_pair (l : list (Q * pystr)) : option (Q * pystr) :=
  match l with
  | [] => None
  | p :: l' => Some (fold_left (fun m q => if pair_gtb q m then q else m) l' p)
  end.

(** [heapq.nlargest(1, result)] *)
Definition nlargest1 (l : list (Q * pystr)) : list (Q * pystr) :=
  option_list (max_pair l).

Definition Qgeb (x y : Q) : bool := Qle_bool y x.

(** The test of [get_close_matches] on one possibility [x]. *)
Definition close_enough (cutoff : Q) (word x : pystr) : bool :=
  Qgeb (real_quick_ratio x word) cutoff
  && Qgeb (quick_ratio x word) cutoff
  && Qgeb (ratio x word (chain_b word)) cutoff.

(** [get_close_matches(word, possibilities, n=1, cutoff)] *)
Definition get_close_matches (word : pystr) (possibilities : list pystr) (cutoff : Q)
  : list pystr :=
  let result :=
    omap (fun x => if close_enough cutoff word x
                   then Some (ratio x word (chain_b word), x) else None)
         possibilities in
  snd <$> nlargest1 result.

End difflib.

(** ** second_implementation.py *)

Module second_implementation.

Definition cutoff : Q := (6 # 10)%Q.

Definition find_best_match (U : Unicode) : matcher := fun tag index =>
  let normalized_tag := normalize_tag U tag in
  let matches := difflib.get_close_matches normalized_tag (odict.keys index) cutoff in
  match matches with
  | m :: _ => Ok (odict.get m index)
  | [] => Ok None
  end.

Definition apply_tag_rules (U : Unicode) := apply_tag_rules U (find_best_match U).

End second_implementation.

(** ** The two modules side by side *)

Inductive implementation := first | second.

Definition find_best_match_of (impl : implementation) (U : Unicode) : matcher :=
  match impl with
  | first => first_implementation.find_best_match U
  | second => second_implementation.find_best_match U
  end.

Definition apply_tag_rules_of (impl : implementation) (U : Unicode) :=
  apply_tag_rules U (find_best_match_of impl U).

(** The tokens of the loop, as [tag.strip()] leaves them. *)
Definition tokens (U : Unicode) (tags : pystr) : list pystr :=
  strip (isspace U) <$> split (py ";") tags.

(** What one token adds to [result_tags]. *)
Definition contribution (impl : implementation) (U : Unicode)
    (index : odict.t pystr) (tag : pystr) : result (list pystr) :=
  result_tags <$>
    process_tag U (find_best_match_of impl U) (fun _ => 0%Z) index false
      {| result_tags := []; invalid_tags_cache := []; ticks := 0; fuzzy_calls := [] |}
      tag.

(** A token that fails the exact lookup, the composite split and the
    fuzzy match. *)
Definition unmatched (impl : implementation) (U : Unicode)
    (index : odict.t pystr) (tag : pystr) : Prop :=
  odict.get (normalize_tag U tag) index = None
  /\ split_composite_tag U tag index = []
  /\ exists r, find_best_match_of impl U tag index = Ok r /\ truthy_opt r = false.

(** The assignments that build the Synonym Index, in the order in which
    [apply_tag_rules] makes them. *)
Definition synonym_writes (U : Unicode) (record : AllowedTagRecord)
  : list (pystr * pystr) :=
  match synonyms record with
  | Some syns =>
      if truthy syns
      then (fun synonym => (normalize_tag U synonym, allowed_name record))
             <$> split (py ", ") syns
      else []
  | None => []
  end.

Definition index_writes (U : Unicode) (rules : list AllowedTagRecord)
  : list (pystr * pystr) :=
  ((fun record => (normalize_tag U (allowed_name record), allowed_name record)) <$> rules)
  ++ concat (synonym_writes U <$> rules).

(** No assignment to the key of an allowed name carries another name:
    the index is free of the last-write-wins collisions. *)
Definition collision_free (U : Unicode) (rules : list AllowedTagRecord) : bool :=
  forallb
    (fun record =>
       forallb
         (fun kv : pystr * pystr =>
            negb (str_eqb kv.1 (normalize_tag U (allowed_name record)))
            || str_eqb kv.2 (allowed_name record))
         (index_writes U rules))
    rules.

(** An entry of the cache is expired at [current_time]. *)
Definition expired (current_time stamp : Z) : Prop :=
  (delete_cache.timedelta_days delete_cache.CACHE_EXPIRATION_DAYS < current_time - stamp)%Z.

Definition expiredb (current_time : Z) (entry : option Z) : bool :=
  match entry with
  | Some stamp =>
      (delete_cache.timedelta_days delete_cache.CACHE_EXPIRATION_DAYS
       <? current_time - stamp)%Z
  | None => false
  end.

(** The rule table of the [__main__] block of both modules. *)
Definition demo_rules : list AllowedTagRecord :=
  [ rule (py "SRS") None;
    rule (py "web_engine") None;
    rule (py "sms") (Some (py "сообщения, messages"));
    rule (py "x86") (Some (py "QEMU, кему"));
    rule (py "svc") (Some (py "Service"));
    rule (py "contacts") (Some (py "контакты"));
    rule (py "display") (Some (py "lcd, дисплей"));
    rule (py "AUTO") None;
    rule (py "lock_screen") (Some (py "экран блокировки")) ].

Definition demo_index : odict.t pystr :=
  allowed_tags_with_synonyms_of latin_cyrillic demo_rules.

(** The outcome of a call, for the examples. *)
Definition returned (r : result outcome) : option pystr :=
  match r with
  | Ok o => Some (final_tags_str o)
  | Raise _ => None
  end.

(** A matcher that only returns values of the index. *)
Definition matcher_sound (fbm : matcher) (index : odict.t pystr) : Prop :=
  forall t name, fbm t index = Ok (Some name) -> name ∈ odict.values index.

(** The part of the loop state that reaches the returned string. *)
Definition same_view (st1 st2 : loop_state) : Prop :=
  result_tags st1 = result_tags st2 /\ fuzzy_calls st1 = fuzzy_calls st2.

Definition same_view_result (r1 r2 : result loop_state) : Prop :=
  match r1, r2 with
  | Ok a, Ok b => same_view a b
  | Raise e1, Raise e2 => e1 = e2
  | _, _ => False
  end.

(** A clock that starts fifteen days after the instant 0 and gains a
    microsecond at every reading. *)
Definition late_clock : nat -> Z :=
  fun n => (delete_cache.timedelta_days 15 + Z.of_nat n)%Z.

(** A clock that reads 1000 at the first call and gains a microsecond at
    every reading. *)
Definition ticking_clock : nat -> Z := fun n => (1000 + Z.of_nat n)%Z.

(** A cache file that already holds the token of the [SomeTrashTag]
    scenario, rejected at the instant 0. *)
Definition trash_file : option delete_cache.json_object :=
  Some [(py "SomeTrashTag", 0%Z)].

(** A rule table with a last-write-wins collision: the synonym [SMS] of
    the second rule takes the key of the first allowed name. *)
Definition colliding_rules : list AllowedTagRecord :=
  [ rule (py "sms") None; rule (py "text") (Some (py "SMS")) ].

(** A rule table with an empty synonym. *)
Definition empty_synonym_rules : list AllowedTagRecord :=
  [ rule (py "sms") (Some (py "messages, ")) ].

(** The work left in the queue of [get_matching_blocks]: a range of [n]
    elements of [a] stands for at most [2 * n + 1] turns of the loop. *)
Definition queue_weight (queue : list (nat * nat * nat * nat)) : nat :=
  sum_list ((fun item : nat * nat * nat * nat => 2 * (item.1.1.2 - item.1.1.1) + 1) <$> queue).

(** A run of the loop of the [__main__] blocks: [delayed_clean=True], on
    the rule table of the repository. *)
Definition run (impl : implementation) (tags : pystr) : option pystr :=
  returned (apply_tag_rules_of impl latin_cyrillic ticking_clock None tags demo_rules true).

(** The characters of [second_token] that the scorer has not paired off
    yet: those at the positions where [used_tokens] is [False]. *)
Fixpoint unused_chars (second_token : pystr) (used_tokens : list bool) : pystr :=
  match second_token, used_tokens with
  | d :: second', u :: used' =>
      if u then unused_chars second' used' else d :: unused_chars second' used'
  | _, _ => []
  end.

(** The characters [normalize_tag] maps to the underscore. *)
Definition is_separator (c : code) : bool :=
  (c =? SPACE)%N || (c =? HYPHEN)%N || (c =? UNDERSCORE)%N.

(** Two tokens that differ in their separators only. *)
Definition same_up_to_separators (t1 t2 : pystr) : Prop :=
  Forall2 (fun c d => c = d \/ (is_separator c = true /\ is_separator d = true)) t1 t2.

(** The cache as the loop finds it: loaded, then cleaned at the first
    reading of the clock. *)
Definition cleaned_cache (now : nat -> Z) (file : option delete_cache.json_object)
  : odict.t Z :=
  delete_cache.clean_cache (now 0) (delete_cache.load_cache file).

(** A token that gets as far as [find_best_match]: the exact lookup and
    the composite split have both failed. *)
Definition reaches_fuzzy (U : Unicode) (index : odict.t pystr) (tag : pystr) : bool :=
  match odict.get (normalize_tag U tag) index with
  | Some _ => false
  | None =>
      match split_composite_tag U tag index with
      | [] => true
      | _ :: _ => false
      end
  end.

Definition SEMICOLON : code := 59%N.

(** A name that survives a trip through the output format: it holds no
    semicolon and [strip] leaves it as it is. *)
Definition plain_name (U : Unicode) (name : pystr) : Prop :=
  (SEMICOLON ∉ name) /\ strip (isspace U) name = name.

(** * Properties *)

(** ** Dictionaries *)

Section odict_facts.
Context {V : Type}.
Implicit Types (d : odict.t V) (k : pystr) (v : V).

Lemma str_eqb_eq k k' : str_eqb k k' = true <-> k = k'.
Proof. unfold str_eqb. apply bool_decide_eq_true. Qed.

Lemma str_eqb_refl k : str_eqb k k = true.
Proof. by apply str_eqb_eq. Qed.

Lemma str_eqb_ne k k' : k <> k' -> str_eqb k k' = false.
Proof. intros. unfold str_eqb. by apply bool_decide_eq_false_2. Qed.

Lemma get_set_eq k v d : odict.get k (odict.set k v d) = Some v.
Proof.
  induction d as [|[k' v'] d IH]; simpl.
  - by rewrite str_eqb_refl.
  - destruct (decide (k = k')) as [->|Hne].
    + rewrite str_eqb_refl. simpl. by rewrite str_eqb_refl.
    + rewrite (str_eqb_ne _ _ Hne). simpl. by rewrite (str_eqb_ne _ _ Hne).
Qed.

Lemma get_set_ne k k' v d : k <> k' -> odict.get k' (odict.set k v d) = odict.get k' d.
Proof.
  intros Hne. induction d as [|[k0 v0] d IH]; simpl.
  - rewrite str_eqb_ne; [done|congruence].
  - destruct (decide (k = k0)) as [->|Hne0].
    + rewrite str_eqb_refl. simpl. rewrite !str_eqb_ne; [done|congruence..].
    + rewrite (str_eqb_ne _ _ Hne0). simpl. by rewrite IH.
Qed.

Lemma get_set k k' v d :
  odict.get k' (odict.set k v d) = if decide (k = k') then Some v else odict.get k' d.
Proof.
  case_decide as Hk.
  - subst. apply get_set_eq.
  - by apply get_set_ne.
Qed.

Lemma get_del_eq k d : odict.get k (odict.del k d) = None.
Proof.
  induction d as [|[k' v'] d IH]; simpl; [done|].
  destruct (decide (k = k')) as [->|Hne].
  - by rewrite str_eqb_refl.
  - rewrite (str_eqb_ne _ _ Hne). simpl. by rewrite (str_eqb_ne _ _ Hne).
Qed.

Lemma get_del_ne k k' d : k <> k' -> odict.get k' (odict.del k d) = odict.get k' d.
Proof.
  intros Hne. induction d as [|[k0 v0] d IH]; simpl; [done|].
  destruct (decide (k = k0)) as [->|Hne0].
  - rewrite str_eqb_refl, IH. rewrite str_eqb_ne; [done|congruence].
  - rewrite (str_eqb_ne _ _ Hne0). simpl. by rewrite IH.
Qed.

Lemma get_del k k' d :
  odict.get k' (odict.del k d) = if decide (k = k') then None else odict.get k' d.
Proof.
  case_decide as Hk.
  - subst. apply get_del_eq.
  - by apply get_del_ne.
Qed.

Lemma get_None_keys k d : odict.get k d = None <-> k ∉ odict.keys d.
Proof.
  induction d as [|[k' v'] d IH]; simpl.
  - split; [intros _; apply not_elem_of_nil|done].
  - rewrite not_elem_of_cons. destruct (decide (k = k')) as [->|Hne].
    + rewrite str_eqb_refl. split; [done|]. by intros [? _].
    + rewrite (str_eqb_ne _ _ Hne), IH. split; [by intros ?|by intros [_ ?]].
Qed.

Lemma get_Some_values k v d : odict.get k d = Some v -> v ∈ odict.values d.
Proof.
  induction d as [|[k' v'] d IH]; simpl; [done|].
  destruct (str_eqb k k').
  - intros [= ->]. apply list_elem_of_here.
  - intros H'. apply list_elem_of_further. auto.
Qed.

Lemma get_Some_keys k v d : odict.get k d = Some v -> k ∈ odict.keys d.
Proof.
  intros Hg. destruct (decide (k ∈ odict.keys d)) as [|Hn]; [done|].
  apply get_None_keys in Hn. congruence.
Qed.
End odict_facts.

(** ** The cache loops *)

Section cache_facts.
Implicit Types (d c : odict.t Z) (k : pystr).

Lemma filter_ext_in {A} (P1 P2 : A -> Prop)
    `{!forall x, Decision (P1 x), !forall x, Decision (P2 x)} (l : list A) :
  (forall x, x ∈ l -> P1 x <-> P2 x) -> filter P1 l = filter P2 l.
Proof.
  induction l as [|a l IH]; intros Hext; [done|].
  rewrite !filter_cons.
  rewrite IH by (intros x Hx; apply Hext; by apply list_elem_of_further).
  apply decide_ext, Hext, list_elem_of_here.
Qed.

Lemma filter_all {A} (P : A -> Prop) `{!forall x, Decision (P x)} (l : list A) :
  (forall x, x ∈ l -> P x) -> filter P l = l.
Proof.
  induction l as [|a l IH]; intros Hall; [done|].
  rewrite filter_cons_True by apply Hall, list_elem_of_here.
  f_equal. apply IH. intros x Hx. by apply Hall, list_elem_of_further.
Qed.

Lemma del_filter k c : odict.del k c = filter (fun kv => kv.1 <> k) c.
Proof.
  induction c as [|[k' v] c IH]; simpl; [done|].
  destruct (decide (k = k')) as [->|Hne].
  - rewrite str_eqb_refl, filter_cons_False; [done|]. simpl. by intros ?.
  - rewrite (str_eqb_ne _ _ Hne), filter_cons_True, IH; [done|]. simpl. congruence.
Qed.

Lemma reconcile_fold_filter (rs ks : list pystr) c :
  fold_left
    (fun d invalid_tag =>
       if bool_decide (invalid_tag ∈ rs) then odict.del invalid_tag d else d) ks c
  = filter (fun kv => ~ (kv.1 ∈ rs /\ kv.1 ∈ ks)) c.
Proof.
  revert c. induction ks as [|t ks IH]; intros c; simpl.
  - symmetry. apply filter_all. intros kv _ [_ H0]. by apply not_elem_of_nil in H0.
  - rewrite IH. case_bool_decide as Ht.
    + rewrite del_filter, list_filter_filter. apply list_filter_iff.
      intros [k v]; simpl. rewrite elem_of_cons. split.
      * intros [H1 H2] [H3 [->|H4]]; [done|]. apply H1. done.
      * intros H1. split; [|intros ->; apply H1; auto].
        intros [? ?]. apply H1. auto.
    + apply list_filter_iff. intros [k v]; simpl. rewrite elem_of_cons. split.
      * intros H1 [H3 [->|H4]]; [done|]. apply H1. done.
      * intros H1 [? ?]. apply H1. auto.
Qed.

(** The reconciliation loop keeps, in their order, the entries whose key
    is not one of the resolved names. *)
Lemma reconcile_filter (rs : list pystr) c :
  reconcile rs c = filter (fun kv => kv.1 ∉ rs) c.
Proof.
  unfold reconcile. rewrite reconcile_fold_filter.
  apply filter_ext_in. intros [k v] Hin; simpl. split.
  - intros H1 H2. apply H1. split; [done|].
    apply list_elem_of_fmap. exists (k, v). done.
  - intros H1 [H2 _]. done.
Qed.

Lemma get_filter_keys (P : pystr -> Prop) `{!forall k, Decision (P k)} k c :
  odict.get k (filter (fun kv => P kv.1) c) = if decide (P k) then odict.get k c else None.
Proof.
  induction c as [|[k' v] c IH]; simpl.
  - by case_decide.
  - destruct (decide (P k')) as [Hk'|Hk'].
    + rewrite filter_cons_True by done. simpl.
      destruct (decide (k = k')) as [->|Hne].
      * rewrite str_eqb_refl. by rewrite decide_True.
      * rewrite (str_eqb_ne _ _ Hne). done.
    + rewrite filter_cons_False by done.
      destruct (decide (k = k')) as [->|Hne].
      * rewrite IH. by rewrite !decide_False.
      * rewrite (str_eqb_ne _ _ Hne). done.
Qed.

Lemma get_reconcile (rs : list pystr) k c :
  odict.get k (reconcile rs c) = if decide (k ∈ rs) then None else odict.get k c.
Proof.
  rewrite reconcile_filter.
  pose proof (get_filter_keys (fun k => k ∉ rs) k c) as Hf. simpl in Hf.
  rewrite Hf. repeat case_decide; done.
Qed.

Lemma clean_fold_get (now0 : Z) (ks : list pystr) c k :
  odict.get k
    (fold_left
       (fun d tag =>
          match odict.get tag d with
          | Some stamp =>
              if (delete_cache.timedelta_days delete_cache.CACHE_EXPIRATION_DAYS
                  <? now0 - stamp)%Z
              then odict.del tag d else d
          | None => d
          end) ks c)
  = if bool_decide (k ∈ ks) && expiredb now0 (odict.get k c) then None else odict.get k c.
Proof.
  revert c. induction ks as [|t ks IH]; intros c; simpl; [done|].
  rewrite IH. clear IH.
  destruct (decide (k = t)) as [->|Hne].
  - rewrite (bool_decide_eq_true_2 (t ∈ t :: ks)) by apply list_elem_of_here. simpl.
    destruct (odict.get t c) as [stamp|] eqn:Hg; simpl.
    + destruct (_ <? _)%Z eqn:Hexp.
      * rewrite get_del_eq. simpl. by rewrite andb_false_r.
      * rewrite Hg. simpl. rewrite Hexp. by rewrite andb_false_r.
    + rewrite Hg. simpl. by rewrite andb_false_r.
  - assert (bool_decide (k ∈ t :: ks) = bool_decide (k ∈ ks)) as ->.
    { apply bool_decide_ext. rewrite elem_of_cons. intuition congruence. }
    assert (odict.get k
              match odict.get t c with
              | Some stamp =>
                  if (delete_cache.timedelta_days delete_cache.CACHE_EXPIRATION_DAYS
                      <? now0 - stamp)%Z
                  then odict.del t c else c
              | None => c
              end = odict.get k c) as ->; [|done].
    destruct (odict.get t c); [|done].
    destruct (_ <? _)%Z; [|done]. by apply get_del_ne.
Qed.

(** [clean_cache] removes the expired entries and keeps the others. *)
Lemma get_clean_cache (now0 : Z) c k :
  odict.get k (delete_cache.clean_cache now0 c)
  = if expiredb now0 (odict.get k c) then None else odict.get k c.
Proof.
  unfold delete_cache.clean_cache. rewrite clean_fold_get.
  case_bool_decide as Hk; [done|]. simpl.
  apply get_None_keys in Hk. rewrite Hk. done.
Qed.
End cache_facts.

(** ** The token loop *)

Section loop_facts.
Variable U : Unicode.
Variable now : nat -> Z.
Variable index : odict.t pystr.
Variable dc : bool.

Local Abbreviation stripped tag := (strip (isspace U) tag).

Lemma process_tag_cases fbm st tag st' :
  process_tag U fbm now index dc st tag = Ok st' ->
  (exists name, odict.get (normalize_tag U (stripped tag)) index = Some name
                /\ st' = add_results [name] st)
  \/ (odict.get (normalize_tag U (stripped tag)) index = None
      /\ split_composite_tag U (stripped tag) index <> []
      /\ st' = add_results (split_composite_tag U (stripped tag) index) st)
  \/ (odict.get (normalize_tag U (stripped tag)) index = None
      /\ split_composite_tag U (stripped tag) index = []
      /\ exists r, fbm (stripped tag) index = Ok r
         /\ ((truthy_opt r = true
              /\ st' = add_results (option_list r) (log_fuzzy (stripped tag) st))
             \/ (truthy_opt r = false
                 /\ st' = if dc then remember now (stripped tag) (log_fuzzy (stripped tag) st)
                          else log_fuzzy (stripped tag) st))).
Proof.
  unfold process_tag. intros H.
  destruct (odict.get (normalize_tag U (stripped tag)) index) as [name|] eqn:Hget.
  { left. exists name. by simplify_eq. }
  right. destruct (split_composite_tag U (stripped tag) index) as [|p ps] eqn:Hsplit.
  2:{ left. by simplify_eq. }
  right. do 2 (split; [done|]).
  destruct (fbm (stripped tag) index) as [r|e] eqn:Hfbm; simpl in H; [|done].
  exists r. split; [done|].
  destruct (truthy_opt r) eqn:Htr.
  - left. by simplify_eq.
  - right. split; [done|]. destruct dc; by simplify_eq.
Qed.

Lemma process_tags_cons fbm st tag rest st' :
  process_tags U fbm now index dc st (tag :: rest) = Ok st' ->
  exists st1, process_tag U fbm now index dc st tag = Ok st1
              /\ process_tags U fbm now index dc st1 rest = Ok st'.
Proof.
  simpl. destruct (process_tag U fbm now index dc st tag) as [st1|e]; simpl; [|done].
  eauto.
Qed.

(** The clock only advances, and an entry of the cache is either left as
    it was or written with a reading taken during the loop. *)
Lemma process_tag_cache fbm st tag st' :
  process_tag U fbm now index dc st tag = Ok st' ->
  ticks st <= ticks st'
  /\ forall k, odict.get k (invalid_tags_cache st') = odict.get k (invalid_tags_cache st)
               \/ exists n, ticks st <= n < ticks st'
                            /\ odict.get k (invalid_tags_cache st') = Some (now n).
Proof.
  intros H. apply process_tag_cases in H. simpl in H.
  destruct H as [(name & _ & ->)|[(_ & _ & ->)|(_ & _ & r & _ & [[_ ->]|[_ ->]])]];
    simpl; try (split; [lia|by left]).
  destruct dc; simpl; [|split; [lia|by left]].
  split; [lia|]. intros k. rewrite get_set. case_decide; [|by left].
  right. exists (ticks st). split; [lia|done].
Qed.

Lemma process_tags_cache fbm st tags st' :
  process_tags U fbm now index dc st tags = Ok st' ->
  ticks st <= ticks st'
  /\ forall k, odict.get k (invalid_tags_cache st') = odict.get k (invalid_tags_cache st)
               \/ exists n, ticks st <= n < ticks st'
                            /\ odict.get k (invalid_tags_cache st') = Some (now n).
Proof.
  revert st. induction tags as [|tag rest IH]; intros st H.
  - simpl in H. simplify_eq. split; [lia|by left].
  - apply process_tags_cons in H as (st1 & H1 & H2).
    apply process_tag_cache in H1 as [Ht1 Hc1].
    apply IH in H2 as [Ht2 Hc2]. split; [lia|]. intros k.
    destruct (Hc2 k) as [Heq|(n & Hn & Hg)].
    + destruct (Hc1 k) as [Heq1|(n & Hn & Hg)].
      * left. congruence.
      * right. exists n. split; [lia|congruence].
    + right. exists n. split; [lia|done].
Qed.

Lemma process_tags_fuzzy_calls fbm st tags st' :
  process_tags U fbm now index dc st tags = Ok st' ->
  forall t, t ∈ fuzzy_calls st -> t ∈ fuzzy_calls st'.
Proof.
  revert st. induction tags as [|tag rest IH]; intros st H t Ht.
  - simpl in H. by simplify_eq.
  - apply process_tags_cons in H as (st1 & H1 & H2).
    apply (IH _ H2). apply process_tag_cases in H1. simpl in H1.
    destruct H1 as [(name & _ & ->)|[(_ & _ & ->)|(_ & _ & r & _ & [[_ ->]|[_ ->]])]];
      simpl; try done; try (destruct dc; simpl); apply elem_of_app; by left.
Qed.

Lemma split_composite_values tag name :
  name ∈ split_composite_tag U tag index -> name ∈ odict.values index.
Proof.
  unfold split_composite_tag. intros (part & _ & Hg)%list_elem_of_omap.
  by apply get_Some_values in Hg.
Qed.

Lemma process_tags_results fbm st tags st' :
  matcher_sound fbm index ->
  process_tags U fbm now index dc st tags = Ok st' ->
  forall name, name ∈ result_tags st' ->
               name ∈ result_tags st \/ name ∈ odict.values index.
Proof.
  intros Hsound. revert st. induction tags as [|tag rest IH]; intros st H name Hn.
  - simpl in H. simplify_eq. by left.
  - apply process_tags_cons in H as (st1 & H1 & H2).
    destruct (IH _ H2 _ Hn) as [Hin|Hin]; [|by right].
    apply process_tag_cases in H1. simpl in H1.
    destruct H1 as [(nm & Hg & ->)|[(_ & _ & ->)|(_ & _ & r & Hr & [[_ ->]|[_ ->]])]];
      simpl in Hin.
    + apply elem_of_app in Hin as [?|Hin]; [by left|right].
      apply list_elem_of_singleton in Hin as ->. by apply get_Some_values in Hg.
    + apply elem_of_app in Hin as [?|Hin]; [by left|right].
      by apply split_composite_values in Hin.
    + apply elem_of_app in Hin as [?|Hin]; [by left|right].
      destruct r as [nm|]; simpl in Hin; [|by apply elem_of_nil in Hin].
      apply list_elem_of_singleton in Hin as ->. by apply (Hsound _ _ Hr).
    + left. by destruct dc.
Qed.

(** A token that fails the three resolution steps is handed to the
    matcher and written to the cache with the reading of the clock. *)
Lemma process_tags_unmatched fbm st tags st' t :
  dc = true ->
  process_tags U fbm now index dc st tags = Ok st' ->
  t ∈ strip (isspace U) <$> tags ->
  odict.get (normalize_tag U t) index = None ->
  split_composite_tag U t index = [] ->
  (exists r, fbm t index = Ok r /\ truthy_opt r = false) ->
  (exists n, ticks st <= n < ticks st'
             /\ odict.get t (invalid_tags_cache st') = Some (now n))
  /\ t ∈ fuzzy_calls st'.
Proof.
  intros Hdc H Ht Hget Hsplit (r & Hr & Hfalsy). revert st H.
  induction tags as [|tag rest IH]; intros st H; [by apply elem_of_nil in Ht|].
  apply process_tags_cons in H as (st1 & H1 & H2).
  rewrite fmap_cons in Ht. apply elem_of_cons in Ht as [Heq|Hin].
  - apply process_tag_cases in H1. simpl in H1. rewrite <- Heq in H1.
    destruct H1 as [(nm & Hg & _)|[(_ & Hs & _)|(_ & _ & r' & Hr' & [[Htr _]|[_ Hst]])]];
      [congruence|congruence|congruence|].
    rewrite Hdc in Hst. subst st1.
    pose proof (process_tags_cache _ _ _ _ H2) as [Hticks Hcache]. simpl in *.
    split.
    + destruct (Hcache t) as [Heq'|(n & Hn & Hg)].
      * exists (ticks st). split; [lia|]. rewrite Heq'. apply get_set_eq.
      * exists n. split; [lia|done].
    + apply (process_tags_fuzzy_calls _ _ _ _ H2). simpl.
      apply elem_of_app. right. apply list_elem_of_singleton. done.
  - destruct (IH Hin _ H2) as [(n & Hn & Hg) Hf].
    apply process_tag_cache in H1 as [Hticks _].
    split; [|done]. exists n. split; [lia|done].
Qed.

(** Without [delayed_clean] the loop leaves the cache and the clock alone. *)
Lemma process_tags_no_delayed_clean fbm st tags st' :
  dc = false ->
  process_tags U fbm now index dc st tags = Ok st' ->
  invalid_tags_cache st' = invalid_tags_cache st /\ ticks st' = ticks st.
Proof.
  intros Hdc. revert st. induction tags as [|tag rest IH]; intros st H.
  - simpl in H. by simplify_eq.
  - apply process_tags_cons in H as (st1 & H1 & H2).
    apply IH in H2 as [-> ->].
    apply process_tag_cases in H1. simpl in H1. rewrite Hdc in H1.
    by destruct H1 as [(nm & _ & ->)|[(_ & _ & ->)|(_ & _ & r & _ & [[_ ->]|[_ ->]])]].
Qed.

(** The loop returns as soon as the matcher does on the tokens that
    reach it. *)
Lemma process_tags_total fbm st tags :
  (forall t, odict.get (normalize_tag U t) index = None ->
             exists r, fbm t index = Ok r) ->
  exists st', process_tags U fbm now index dc st tags = Ok st'.
Proof.
  intros Htot. revert st. induction tags as [|tag rest IH]; intros st; simpl; [eauto|].
  assert (exists st1, process_tag U fbm now index dc st tag = Ok st1) as [st1 ->].
  { unfold process_tag.
    destruct (odict.get _ index) eqn:Hg; [eauto|].
    destruct (split_composite_tag _ _ _); [|eauto].
    destruct (Htot _ Hg) as [r ->]. simpl.
    destruct (truthy_opt r); [eauto|]. destruct dc; eauto. }
  simpl. apply IH.
Qed.

(** Two matchers that agree on the tokens that reach them give the same
    loop. *)
Lemma process_tags_ext fbm1 fbm2 st tags :
  (forall t, t ∈ strip (isspace U) <$> tags ->
             odict.get (normalize_tag U t) index = None ->
             split_composite_tag U t index = [] ->
             fbm1 t index = fbm2 t index) ->
  process_tags U fbm1 now index dc st tags = process_tags U fbm2 now index dc st tags.
Proof.
  revert st. induction tags as [|tag rest IH]; intros st Hagree; [done|]. simpl.
  assert (process_tag U fbm1 now index dc st tag
          = process_tag U fbm2 now index dc st tag) as ->.
  { unfold process_tag.
    destruct (odict.get _ index) eqn:Hg; [done|].
    destruct (split_composite_tag _ _ _) eqn:Hs; [|done].
    rewrite (Hagree (strip (isspace U) tag)); [done| |done..].
    rewrite fmap_cons. apply list_elem_of_here. }
  destruct (process_tag U fbm2 now index dc st tag); simpl; [|done].
  apply IH. intros t Ht. apply Hagree. rewrite fmap_cons. by apply list_elem_of_further.
Qed.

(** Tokens found by the exact lookup are appended in order. *)
Lemma process_tags_exact fbm st tags :
  (forall t, t ∈ strip (isspace U) <$> tags ->
             odict.get (normalize_tag U t) index = Some t) ->
  process_tags U fbm now index dc st tags
  = Ok (add_results (strip (isspace U) <$> tags) st).
Proof.
  revert st. induction tags as [|tag rest IH]; intros st Hex; simpl.
  - destruct st. unfold add_results. simpl. by rewrite app_nil_r.
  - unfold process_tag at 1.
    rewrite (Hex (strip (isspace U) tag)) by (rewrite fmap_cons; apply list_elem_of_here).
    simpl. rewrite IH.
    + unfold add_results. simpl. by rewrite <- app_assoc.
    + intros t Ht. apply Hex. rewrite fmap_cons. by apply list_elem_of_further.
Qed.
End loop_facts.

(** The names and the trace produced by the loop depend neither on the
    cache nor on the clock. *)
Lemma process_tag_view U fbm now1 now2 index dc st1 st2 tag :
  same_view st1 st2 ->
  same_view_result (process_tag U fbm now1 index dc st1 tag)
                   (process_tag U fbm now2 index dc st2 tag).
Proof.
  intros [Hr Hf]. unfold process_tag.
  destruct (odict.get _ index); [by split; simpl; rewrite ?Hr|].
  destruct (split_composite_tag _ _ _); [|by split; simpl; rewrite ?Hr].
  destruct (fbm _ index) as [r|e]; simpl; [|done].
  destruct (truthy_opt r); [by split; simpl; rewrite ?Hr, ?Hf|].
  destruct dc; by split; simpl; rewrite ?Hr, ?Hf.
Qed.

Lemma process_tags_view U fbm now1 now2 index dc tags st1 st2 :
  same_view st1 st2 ->
  same_view_result (process_tags U fbm now1 index dc st1 tags)
                   (process_tags U fbm now2 index dc st2 tags).
Proof.
  revert st1 st2. induction tags as [|tag rest IH]; intros st1 st2 Hv; [done|]. simpl.
  pose proof (process_tag_view U fbm now1 now2 index dc st1 st2 tag Hv) as H1.
  destruct (process_tag U fbm now1 index dc st1 tag) as [a|e1],
           (process_tag U fbm now2 index dc st2 tag) as [b|e2]; simpl in *; try done.
  by apply IH.
Qed.

(** ** The Tanimoto scorer and [find_best_match] of the first module *)

Section first_facts.
Import first_implementation.

Lemma count_equal_fold_le second (fst_tok : pystr) (st : nat * list bool) :
  (fold_left
     (fun st c =>
        match pair_off c second st.2 with
        | Some used => (S st.1, used)
        | None => st
        end) fst_tok st).1 <= st.1 + length fst_tok.
Proof.
  revert st. induction fst_tok as [|c l IH]; intros st; simpl; [lia|].
  etrans; [apply IH|]. destruct (pair_off c second st.2); simpl; lia.
Qed.

Lemma count_equal_le a b : (count_equal a b).1 <= length a.
Proof. unfold count_equal. etrans; [apply count_equal_fold_le|]. simpl. lia. Qed.

Lemma count_equal_nil_r a : (count_equal a []).1 = 0.
Proof.
  unfold count_equal. simpl.
  assert (forall st : nat * list bool,
            fold_left
              (fun st c =>
                 match pair_off c [] st.2 with
                 | Some used => (S st.1, used)
                 | None => st
                 end) a st = st) as ->; [|done].
  induction a as [|c l IH]; intros st; simpl; [done|]. apply IH.
Qed.

(** The scorer divides by zero on two empty strings, and only there. *)
Lemma is_tokens_fuzzy_equal_Ok a b :
  a <> [] \/ b <> [] ->
  exists q, is_tokens_fuzzy_equal a b = Ok q.
Proof.
  intros Hne. unfold is_tokens_fuzzy_equal, truediv.
  pose proof (count_equal_le a b) as Hle.
  destruct (_ =? 0)%Z eqn:Hz; [|eauto]. exfalso.
  apply Z.eqb_eq in Hz.
  assert (length b = 0) as Hb by lia.
  apply nil_length_inv in Hb. subst b.
  rewrite count_equal_nil_r in Hz. simpl in Hz.
  assert (length a = 0) as Ha by lia. apply nil_length_inv in Ha.
  by destruct Hne.
Qed.

Lemma is_tokens_fuzzy_equal_nil_l b q :
  is_tokens_fuzzy_equal [] b = Ok q -> (q == 0)%Q.
Proof.
  unfold is_tokens_fuzzy_equal, truediv. simpl.
  destruct (_ =? 0)%Z; [done|]. intros [= <-]. done.
Qed.

Lemma is_tokens_fuzzy_equal_nil_r a q :
  is_tokens_fuzzy_equal a [] = Ok q -> (q == 0)%Q.
Proof.
  unfold is_tokens_fuzzy_equal, truediv. rewrite count_equal_nil_r. simpl.
  destruct (_ =? 0)%Z; [done|]. intros [= <-]. done.
Qed.

(** The loop keeps the first key of the greatest score above the
    starting score, or nothing. *)
Lemma best_loop_spec nt keys bm bs bm' bs' :
  best_loop nt keys bm bs = Ok (bm', bs') ->
  (bm' = bm /\ bs' = bs
   /\ forall k s, k ∈ keys -> is_tokens_fuzzy_equal nt k = Ok s -> (s <= bs)%Q)
  \/ (exists l1 k l2,
        keys = l1 ++ k :: l2 /\ bm' = Some k
        /\ is_tokens_fuzzy_equal nt k = Ok bs' /\ (bs < bs')%Q
        /\ (forall k' s, k' ∈ l1 -> is_tokens_fuzzy_equal nt k' = Ok s -> (s < bs')%Q)
        /\ (forall k' s, k' ∈ l2 -> is_tokens_fuzzy_equal nt k' = Ok s -> (s <= bs')%Q)).
Proof.
  revert bm bs. induction keys as [|a rest IH]; intros bm bs H; simpl in H.
  - left. simplify_eq. do 2 (split; [done|]). intros k s Hk. by apply elem_of_nil in Hk.
  - destruct (is_tokens_fuzzy_equal nt a) as [sa|e] eqn:Hsa; simpl in H; [|done].
    destruct (Qlt_le_dec bs sa) as [Hlt|Hle].
    + right. apply IH in H as [(-> & -> & Hall)|(l1 & k & l2 & -> & -> & Hk & Hlt' & H1 & H2)].
      * exists [], a, rest. repeat split; try done.
        intros k' s Hk'. by apply elem_of_nil in Hk'.
      * exists (a :: l1), k, l2. repeat split; try done.
        -- by eapply Qlt_trans.
        -- intros k' s [->|Hin]%elem_of_cons Hs; [|by eapply H1].
           rewrite Hsa in Hs. by simplify_eq.
    + apply IH in H as [(-> & -> & Hall)|(l1 & k & l2 & -> & -> & Hk & Hlt' & H1 & H2)].
      * left. do 2 (split; [done|]).
        intros k s [->|Hin]%elem_of_cons Hs; [|by eapply Hall].
        rewrite Hsa in Hs. by simplify_eq.
      * right. exists (a :: l1), k, l2. repeat split; try done.
        intros k' s [->|Hin]%elem_of_cons Hs; [|by eapply H1].
        rewrite Hsa in Hs. simplify_eq. by eapply Qle_lt_trans.
Qed.

Lemma best_loop_total nt keys bm bs :
  (forall k, k ∈ keys -> nt <> [] \/ k <> []) ->
  exists r, best_loop nt keys bm bs = Ok r.
Proof.
  revert bm bs. induction keys as [|a rest IH]; intros bm bs Hne; simpl; [eauto|].
  destruct (is_tokens_fuzzy_equal_Ok nt a) as [q ->].
  { apply Hne, list_elem_of_here. }
  simpl. destruct (Qlt_le_dec bs q); apply IH; intros k Hk;
    by apply Hne, list_elem_of_further.
Qed.

Lemma threshold_pos : (0 < threshold)%Q.
Proof. done. Qed.

(** [find_best_match] returns on every token that fails the exact
    lookup: the scorer never meets two empty strings. *)
Lemma find_best_match_total U tag index :
  odict.get (normalize_tag U tag) index = None ->
  exists r, find_best_match U tag index = Ok r.
Proof.
  intros Hg. unfold find_best_match.
  destruct (best_loop_total (normalize_tag U tag) (odict.keys index) None threshold)
    as [[bm bs] ->].
  { intros k Hk. apply get_None_keys in Hg.
    destruct (decide (k = [])) as [->|]; [|by right].
    left. intros Hnil. rewrite Hnil in Hg. done. }
  simpl. destruct (truthy_opt bm); eauto.
Qed.

Lemma find_best_match_sound U index : matcher_sound (find_best_match U) index.
Proof.
  intros t name. unfold find_best_match.
  destruct (best_loop _ _ _ _) as [[bm bs]|e]; simpl; [|done].
  destruct (truthy_opt bm); [|done].
  destruct bm as [k|]; simpl; [|done].
  intros [= Hg]. by apply get_Some_values in Hg.
Qed.

(** An empty normalized token matches no key. *)
Lemma find_best_match_empty U tag index :
  normalize_tag U tag = [] ->
  odict.get [] index = None ->
  find_best_match U tag index = Ok None.
Proof.
  intros Hnt Hg. unfold find_best_match. rewrite Hnt.
  destruct (best_loop_total [] (odict.keys index) None threshold) as [[bm bs] Hloop].
  { intros k Hk. right. intros ->. by apply get_None_keys in Hg. }
  rewrite Hloop. simpl.
  apply best_loop_spec in Hloop as [(-> & _)|(l1 & k & l2 & _ & -> & Hk & Hlt & _)];
    [done|].
  apply is_tokens_fuzzy_equal_nil_l in Hk. rewrite Hk in Hlt.
  exfalso. apply (Qlt_irrefl 0). eapply Qlt_trans; [apply threshold_pos|done].
Qed.
End first_facts.

(** ** [get_close_matches] and [find_best_match] of the second module *)

Section second_facts.
Import difflib.

Lemma str_ltb_irrefl a : str_ltb a a = false.
Proof.
  induction a as [|c a IH]; simpl; [done|].
  rewrite N.ltb_irrefl, N.eqb_refl, IH. done.
Qed.

Lemma str_ltb_trans a b c :
  str_ltb a b = true -> str_ltb b c = true -> str_ltb a c = true.
Proof.
  revert b c. induction a as [|x a IH]; intros [|y b] [|z c]; simpl; try done.
  rewrite !orb_true_iff, !andb_true_iff, !N.ltb_lt, !N.eqb_eq.
  intros [Hxy|[-> Hab]] [Hyz|[-> Hbc]].
  - left. lia.
  - by left.
  - by left.
  - right. split; [done|]. by eapply IH.
Qed.

Lemma str_ltb_total a b : str_ltb a b = true \/ a = b \/ str_ltb b a = true.
Proof.
  revert b. induction a as [|x a IH]; intros [|y b]; simpl; auto.
  rewrite !orb_true_iff, !andb_true_iff, !N.ltb_lt, !N.eqb_eq.
  destruct (N.lt_trichotomy x y) as [?|[->|?]]; [auto| |auto].
  destruct (IH b) as [?|[->|?]]; auto.
Qed.

Lemma pair_gtb_spec p q :
  pair_gtb p q = true
  <-> (q.1 < p.1)%Q \/ ((p.1 == q.1)%Q /\ str_ltb q.2 p.2 = true).
Proof.
  unfold pair_gtb. destruct (Qcompare_spec p.1 q.1) as [Heq|Hlt|Hgt].
  - split; [by right|]. intros [Hlt|[_ ?]]; [|done].
    rewrite Heq in Hlt. by apply Qlt_irrefl in Hlt.
  - split; [done|]. intros [Hgt|[Heq _]].
    + exfalso. apply (Qlt_irrefl p.1). by eapply Qlt_trans.
    + rewrite Heq in Hlt. by apply Qlt_irrefl in Hlt.
  - split; [by left|done].
Qed.

Lemma pair_gtb_irrefl p : pair_gtb p p = false.
Proof.
  apply not_true_is_false. intros [Hlt|[_ Hs]]%pair_gtb_spec.
  - by apply Qlt_irrefl in Hlt.
  - by rewrite str_ltb_irrefl in Hs.
Qed.

Lemma pair_gtb_trans p q r :
  pair_gtb p q = true -> pair_gtb q r = true -> pair_gtb p r = true.
Proof.
  rewrite !pair_gtb_spec. intros [H1|[E1 S1]] [H2|[E2 S2]].
  - left. by eapply Qlt_trans.
  - left. by rewrite <- E2.
  - left. by rewrite E1.
  - right. split; [by rewrite E1|]. by eapply str_ltb_trans.
Qed.

Lemma pair_gtb_negtrans p q r :
  pair_gtb p r = true -> pair_gtb p q = true \/ pair_gtb q r = true.
Proof.
  rewrite !pair_gtb_spec. intros [H1|[E1 S1]].
  - destruct (Qlt_le_dec q.1 p.1) as [?|Hle]; [by left; left|].
    right. left. by eapply Qlt_le_trans.
  - destruct (Qcompare_spec q.1 p.1) as [Heq|Hlt|Hgt].
    + destruct (str_ltb_total q.2 p.2) as [?|[Hqp|?]].
      * left. right. split; [by symmetry|done].
      * right. right. split; [by rewrite Heq|]. by rewrite Hqp.
      * right. right. split; [by rewrite Heq|]. by eapply str_ltb_trans.
    + by left; left.
    + right. left. by rewrite <- E1.
Qed.

Lemma max_fold_spec (l : list (Q * pystr)) m0 :
  let m := fold_left (fun m q => if pair_gtb q m then q else m) l m0 in
  (m = m0 \/ m ∈ l)
  /\ pair_gtb m0 m = false
  /\ forall q, q ∈ l -> pair_gtb q m = false.
Proof.
  revert m0. induction l as [|q0 l IH]; intros m0; simpl.
  - split; [by left|]. split; [apply pair_gtb_irrefl|].
    intros q Hq. by apply elem_of_nil in Hq.
  - destruct (IH (if pair_gtb q0 m0 then q0 else m0)) as (Hin & Hm1 & Hall).
    set (m := fold_left _ l _) in *.
    destruct (pair_gtb q0 m0) eqn:Hq0.
    + split; [right; destruct Hin as [->|?];
              [apply list_elem_of_here|by apply list_elem_of_further]|].
      split.
      * apply not_true_is_false. intros Hgt.
        rewrite (pair_gtb_trans _ _ _ Hq0 Hgt) in Hm1. done.
      * intros q [->|Hq]%elem_of_cons; [done|by apply Hall].
    + split; [destruct Hin as [->|?]; [by left|right; by apply list_elem_of_further]|].
      split; [done|].
      intros q [->|Hq]%elem_of_cons; [|by apply Hall].
      apply not_true_is_false. intros Hgt.
      destruct (pair_gtb_negtrans _ m0 _ Hgt); congruence.
Qed.

Lemma max_pair_spec l m :
  max_pair l = Some m -> m ∈ l /\ forall q, q ∈ l -> pair_gtb q m = false.
Proof.
  destruct l as [|p l]; simpl; [done|]. intros [= <-].
  destruct (max_fold_spec l p) as (Hin & Hp & Hall). split.
  - destruct Hin as [->|?]; [apply list_elem_of_here|by apply list_elem_of_further].
  - intros q [->|Hq]%elem_of_cons; [done|by apply Hall].
Qed.

Lemma Qgeb_spec x y : Qgeb x y = true <-> (y <= x)%Q.
Proof. unfold Qgeb. apply Qle_bool_iff. Qed.

(** [get_close_matches] returns at most one possibility: one that passes
    the cutoff and that no other such possibility beats, where the
    greater ratio wins and, at equal ratios, the greater string. *)
Lemma get_close_matches_spec word possibilities cutoff :
  (get_close_matches word possibilities cutoff = []
   /\ forall x, x ∈ possibilities -> close_enough cutoff word x = false)
  \/ (exists k,
        get_close_matches word possibilities cutoff = [k]
        /\ k ∈ possibilities
        /\ close_enough cutoff word k = true
        /\ (cutoff <= ratio k word (chain_b word))%Q
        /\ forall x, x ∈ possibilities -> close_enough cutoff word x = true ->
             pair_gtb (ratio x word (chain_b word), x)
                      (ratio k word (chain_b word), k) = false).
Proof.
  unfold get_close_matches, nlargest1.
  set (f := fun x => if close_enough cutoff word x
                     then Some (ratio x word (chain_b word), x) else None).
  assert (forall p, p ∈ omap f possibilities
                    <-> exists x, x ∈ possibilities /\ close_enough cutoff word x = true
                                  /\ p = (ratio x word (chain_b word), x)) as Hmem.
  { intros p. rewrite list_elem_of_omap. unfold f. split.
    - intros (x & Hx & Hfx). exists x. destruct (close_enough cutoff word x); [|done].
      by simplify_eq.
    - intros (x & Hx & Hc & ->). exists x. by rewrite Hc. }
  destruct (max_pair (omap f possibilities)) as [m|] eqn:Hmax; simpl.
  - right. apply max_pair_spec in Hmax as [Hin Hall].
    apply Hmem in Hin as (k & Hk & Hc & ->). exists k. simpl.
    do 3 (split; [done|]). split.
    + unfold close_enough in Hc. apply andb_true_iff in Hc as [_ Hc].
      by apply Qgeb_spec in Hc.
    + intros x Hx Hcx. apply Hall, Hmem. eauto.
  - left. split; [done|]. intros x Hx.
    destruct (close_enough cutoff word x) eqn:Hc; [|done].
    assert ((ratio x word (chain_b word), x) ∈ omap f possibilities) as Hin
      by (apply Hmem; eauto).
    destruct (omap f possibilities); [by apply elem_of_nil in Hin|done].
Qed.

Lemma second_find_best_match_sound U index :
  matcher_sound (second_implementation.find_best_match U) index.
Proof.
  intros t name. unfold second_implementation.find_best_match.
  destruct (get_close_matches _ _ _) as [|m ms]; [done|].
  intros [= Hg]. by apply get_Some_values in Hg.
Qed.

Lemma calculate_ratio_zero len : len <> 0 -> (calculate_ratio 0 len == 0)%Q.
Proof. destruct len; done. Qed.

(** An empty word is close to no non-empty possibility. *)
Lemma close_enough_empty x : x <> [] -> close_enough second_implementation.cutoff [] x = false.
Proof.
  intros Hx. unfold close_enough.
  assert (Qgeb (real_quick_ratio x []) second_implementation.cutoff = false) as ->; [|done].
  apply not_true_is_false. intros Hge%Qgeb_spec.
  unfold real_quick_ratio in Hge. simpl in Hge.
  rewrite Nat.min_0_r, calculate_ratio_zero in Hge by (destruct x; simpl; [done|lia]).
  done.
Qed.

Lemma second_find_best_match_empty U tag index :
  normalize_tag U tag = [] ->
  odict.get [] index = None ->
  second_implementation.find_best_match U tag index = Ok None.
Proof.
  intros Hnt Hg. unfold second_implementation.find_best_match. rewrite Hnt.
  destruct (get_close_matches_spec [] (odict.keys index) second_implementation.cutoff)
    as [[-> _]|(k & _ & Hk & Hc & _)]; [done|].
  rewrite close_enough_empty in Hc; [done|].
  intros ->. by apply get_None_keys in Hg.
Qed.
End second_facts.

(** ** The Synonym Index *)

Section index_facts.
Variable U : Unicode.

Local Abbreviation write := (fun (d : odict.t pystr) (kv : pystr * pystr) =>
                              odict.set kv.1 kv.2 d).

Lemma add_synonyms_writes d record :
  add_synonyms U d record = fold_left write (synonym_writes U record) d.
Proof.
  unfold add_synonyms, synonym_writes.
  destruct (synonyms record) as [syns|]; [|done].
  destruct (truthy syns); [|done].
  generalize (split (py ", ") syns). intros l. revert d.
  induction l as [|s l IH]; intros d; simpl; [done|]. apply IH.
Qed.

(** The index is the result of the assignments of [index_writes]. *)
Lemma index_as_writes rules :
  allowed_tags_with_synonyms_of U rules = fold_left write (index_writes U rules) [].
Proof.
  unfold allowed_tags_with_synonyms_of, index_writes, allowed_tags_of.
  rewrite fold_left_app. generalize (@nil (pystr * pystr)) as d0. intros d0.
  assert (forall d, fold_left
                      (fun d record =>
                         odict.set (normalize_tag U (allowed_name record))
                                   (allowed_name record) d) rules d
                    = fold_left write
                        ((fun record => (normalize_tag U (allowed_name record),
                                         allowed_name record)) <$> rules) d) as ->.
  { induction rules as [|r rs IH]; intros d; simpl; [done|]. apply IH. }
  generalize (fold_left write
                ((fun record => (normalize_tag U (allowed_name record),
                                 allowed_name record)) <$> rules) d0) as d.
  induction rules as [|r rs IH]; intros d; simpl; [done|].
  rewrite fold_left_app, add_synonyms_writes. apply IH.
Qed.

Lemma elem_of_set (k : pystr) (v : pystr) d x :
  x ∈ odict.set k v d -> x = (k, v) \/ x ∈ d.
Proof.
  induction d as [|[k' v'] d IH]; simpl.
  - intros ->%list_elem_of_singleton. by left.
  - destruct (decide (k = k')) as [->|Hne].
    + rewrite str_eqb_refl. intros [->|?]%elem_of_cons; [by left|].
      right. by apply list_elem_of_further.
    + rewrite (str_eqb_ne _ _ Hne). intros [->|Hx]%elem_of_cons.
      * right. apply list_elem_of_here.
      * destruct (IH Hx); [by left|right; by apply list_elem_of_further].
Qed.

Lemma elem_of_fold_writes ws d x :
  x ∈ fold_left write ws d -> x ∈ ws \/ x ∈ d.
Proof.
  revert d. induction ws as [|[k v] ws IH]; intros d; simpl; [by right|].
  intros [Hx|Hx]%IH.
  - left. by apply list_elem_of_further.
  - apply elem_of_set in Hx as [->|?]; [left; apply list_elem_of_here|by right].
Qed.

Lemma fold_writes_is_Some ws d k :
  k ∈ ws.*1 \/ is_Some (odict.get k d) ->
  is_Some (odict.get k (fold_left write ws d)).
Proof.
  revert d. induction ws as [|[k' v] ws IH]; intros d; simpl.
  - intros [Hk|?]; [by apply elem_of_nil in Hk|done].
  - intros [Hk|Hs]; apply IH.
    + apply elem_of_cons in Hk as [->|?]; [right|by left].
      simpl. rewrite get_set_eq. eauto.
    + right. simpl. rewrite get_set. by case_decide.
Qed.

Lemma fold_writes_agree ws d k v :
  (forall v', (k, v') ∈ ws -> v' = v) ->
  k ∈ ws.*1 \/ odict.get k d = Some v ->
  odict.get k (fold_left write ws d) = Some v.
Proof.
  revert d. induction ws as [|[k' v0] ws IH]; intros d Hall; simpl.
  - intros [Hk|?]; [by apply elem_of_nil in Hk|done].
  - assert (forall v', (k, v') ∈ ws -> v' = v) as Hall'
        by (intros v' Hv'; apply Hall; by apply list_elem_of_further).
    intros [Hk|Hs]; apply IH; try done.
    + apply elem_of_cons in Hk as [Hk|?]; [right|by left].
      simpl in Hk. subst k'. simpl. rewrite get_set_eq. f_equal.
      apply Hall, list_elem_of_here.
    + right. simpl. rewrite get_set. case_decide as Hk; [|done].
      subst k'. f_equal. apply Hall, list_elem_of_here.
Qed.

Lemma index_writes_values rules k v :
  (k, v) ∈ index_writes U rules ->
  exists record, record ∈ rules /\ v = allowed_name record.
Proof.
  unfold index_writes. intros [Hin|Hin]%elem_of_app.
  - apply list_elem_of_fmap in Hin as (r & [= -> ->] & Hr). eauto.
  - apply list_elem_of_In, in_concat in Hin as (ws & Hws & Hin).
    apply list_elem_of_In in Hws, Hin.
    apply list_elem_of_fmap in Hws as (r & -> & Hr). exists r. split; [done|].
    unfold synonym_writes in Hin. destruct (synonyms r) as [syns|];
      [|by apply elem_of_nil in Hin].
    destruct (truthy syns); [|by apply elem_of_nil in Hin].
    by apply list_elem_of_fmap in Hin as (s & [= -> ->] & _).
Qed.

Lemma index_writes_allowed rules record :
  record ∈ rules ->
  (normalize_tag U (allowed_name record), allowed_name record) ∈ index_writes U rules.
Proof.
  intros Hr. unfold index_writes. apply elem_of_app. left.
  apply list_elem_of_fmap. eauto.
Qed.

(** The normalized form of every value of the index is one of its keys. *)
Lemma index_value_key rules name :
  name ∈ odict.values (allowed_tags_with_synonyms_of U rules) ->
  is_Some (odict.get (normalize_tag U name) (allowed_tags_with_synonyms_of U rules)).
Proof.
  intros (kv & -> & Hkv)%list_elem_of_fmap. destruct kv as [k v]. simpl.
  rewrite index_as_writes in *.
  apply elem_of_fold_writes in Hkv as [Hkv|Hkv]; [|by apply elem_of_nil in Hkv].
  apply index_writes_values in Hkv as (r & Hr & ->).
  apply fold_writes_is_Some. left.
  apply list_elem_of_fmap. exists (normalize_tag U (allowed_name r), allowed_name r).
  split; [done|]. by apply index_writes_allowed.
Qed.

(** Without collisions, the key of every allowed name leads back to it. *)
Lemma collision_free_get rules record :
  collision_free U rules = true ->
  record ∈ rules ->
  odict.get (normalize_tag U (allowed_name record)) (allowed_tags_with_synonyms_of U rules)
  = Some (allowed_name record).
Proof.
  intros Hfree Hr. rewrite index_as_writes. apply fold_writes_agree.
  - intros v' Hv'. unfold collision_free in Hfree.
    rewrite forallb_forall in Hfree. apply list_elem_of_In in Hr.
    specialize (Hfree _ Hr). rewrite forallb_forall in Hfree.
    apply list_elem_of_In in Hv'. specialize (Hfree _ Hv'). simpl in Hfree.
    rewrite str_eqb_refl in Hfree. simpl in Hfree. by apply str_eqb_eq in Hfree.
  - left. apply list_elem_of_fmap.
    exists (normalize_tag U (allowed_name record), allowed_name record).
    split; [done|]. by apply index_writes_allowed.
Qed.
End index_facts.

(** ** The whole call *)

Section call_facts.
Variable U : Unicode.

Lemma find_best_match_of_total impl tag index :
  odict.get (normalize_tag U tag) index = None ->
  exists r, find_best_match_of impl U tag index = Ok r.
Proof.
  destruct impl; simpl.
  - apply find_best_match_total.
  - intros _. unfold second_implementation.find_best_match.
    destruct (difflib.get_close_matches _ _ _); eauto.
Qed.

Lemma find_best_match_of_sound impl index :
  matcher_sound (find_best_match_of impl U) index.
Proof.
  destruct impl; [apply find_best_match_sound|apply second_find_best_match_sound].
Qed.

Lemma find_best_match_of_empty impl tag index :
  normalize_tag U tag = [] ->
  odict.get [] index = None ->
  find_best_match_of impl U tag index = Ok None.
Proof.
  destruct impl; [apply find_best_match_empty|apply second_find_best_match_empty].
Qed.

(** Both matchers look at the token through [normalize_tag] only. *)
Lemma find_best_match_of_normalized impl t1 t2 index :
  normalize_tag U t1 = normalize_tag U t2 ->
  find_best_match_of impl U t1 index = find_best_match_of impl U t2 index.
Proof.
  intros Hn. destruct impl; simpl.
  - unfold first_implementation.find_best_match. by rewrite Hn.
  - unfold second_implementation.find_best_match. by rewrite Hn.
Qed.

Lemma apply_tag_rules_Ok fbm now file tags rules dc st :
  process_tags U fbm now (allowed_tags_with_synonyms_of U rules) dc
    (initial_state now file) (split (py ";") tags) = Ok st ->
  apply_tag_rules U fbm now file tags rules dc
  = Ok {| final_tags_str := join (py "; ") (fromkeys (result_tags st));
          saved_cache :=
            if dc then reconcile (result_tags st) (invalid_tags_cache st)
            else invalid_tags_cache st;
          fuzzy_trace := fuzzy_calls st |}.
Proof. intros H. unfold apply_tag_rules. rewrite H. done. Qed.

(** Both modules return on every input. *)
Lemma process_tags_of_total impl now file tags rules dc :
  exists st,
    process_tags U (find_best_match_of impl U) now
      (allowed_tags_with_synonyms_of U rules) dc
      (initial_state now file) (split (py ";") tags) = Ok st.
Proof. apply process_tags_total. intros t. apply find_best_match_of_total. Qed.

Lemma elem_of_keys_set {V} (k : pystr) (v : V) d x :
  x ∈ odict.keys (odict.set k v d) <-> x = k \/ x ∈ odict.keys d.
Proof.
  destruct (decide (x ∈ odict.keys (odict.set k v d))) as [Hin|Hout].
  - split; [|done]. intros _.
    destruct (decide (x = k)) as [|Hne]; [by left|right].
    destruct (decide (x ∈ odict.keys d)) as [|Hn]; [done|].
    apply get_None_keys in Hn. exfalso. revert Hin. apply get_None_keys.
    rewrite get_set_ne; done.
  - split; [done|]. intros Hx. exfalso. apply Hout. clear Hout.
    destruct (decide (x ∈ odict.keys (odict.set k v d))) as [|Hn]; [done|].
    apply get_None_keys in Hn. rewrite get_set in Hn. case_decide; [done|].
    destruct Hx as [->|Hx]; [done|]. by apply get_None_keys in Hn.
Qed.

(** [fromkeys] keeps every name of the list. *)
Lemma elem_of_fromkeys l x : x ∈ fromkeys l <-> x ∈ l.
Proof.
  unfold fromkeys.
  assert (forall d : odict.t unit,
            x ∈ odict.keys (fold_left (fun d k => odict.set k () d) l d)
            <-> x ∈ l \/ x ∈ odict.keys d) as ->.
  { induction l as [|k l IH]; intros d; simpl.
    - rewrite elem_of_nil. tauto.
    - rewrite IH, elem_of_keys_set, elem_of_cons. tauto. }
  simpl. rewrite elem_of_nil. tauto.
Qed.

Lemma reconcile_nil c : reconcile [] c = c.
Proof.
  rewrite reconcile_filter. apply filter_all. intros kv _. apply not_elem_of_nil.
Qed.
End call_facts.

(** ** The matching blocks of [difflib]: the bound on the turns of the loop *)

Section difflib_facts.
Import difflib.
Variables a b : pystr.
Variable b2j : gmap code (list nat).

Lemma scan_row_bounds alo blo bhi i js (j2len newj2len : gmap nat nat) best :
  alo <= i ->
  (forall j k, j2len !! j = Some k -> k <= i - alo) ->
  (forall j k, newj2len !! j = Some k -> k <= i + 1 - alo) ->
  alo <= best.1.1 /\ best.1.1 + size best <= i + 1 ->
  let r := scan_row blo bhi i js j2len newj2len best in
  (forall j k, r.1 !! j = Some k -> k <= i + 1 - alo)
  /\ alo <= r.2.1.1 /\ r.2.1.1 + size r.2 <= i + 1.
Proof.
  intros Hi Hold. revert newj2len best.
  induction js as [|j js IH]; intros newj2len best Hnew Hbest; simpl; [done|].
  destruct (j <? blo); [by apply IH|].
  destruct (bhi <=? j); [done|].
  set (k := match j with
            | 0 => 0
            | S j' => default 0 (j2len !! j')
            end + 1).
  assert (k <= i + 1 - alo) as Hk.
  { unfold k. destruct j as [|j']; [lia|].
    destruct (j2len !! j') as [k'|] eqn:Hj; simpl; [|lia].
    apply Hold in Hj. lia. }
  apply IH.
  - intros j0 k0. rewrite lookup_insert. case_decide; [|by apply Hnew].
    intros [= <-]. done.
  - destruct (size best <? k); [|done]. unfold size. simpl. lia.
Qed.

Lemma scan_rows_fold_bounds alo blo bhi n s (st : gmap nat nat * Match) :
  alo <= s ->
  (forall j k, st.1 !! j = Some k -> k <= s - alo) ->
  alo <= st.2.1.1 /\ st.2.1.1 + size st.2 <= s ->
  let r := fold_left
             (fun (st : gmap nat nat * Match) i =>
                let js := match a !! i with
                          | Some elt => default [] (b2j !! elt)
                          | None => []
                          end in
                scan_row blo bhi i js st.1 ∅ st.2)
             (seq s n) st in
  alo <= r.2.1.1 /\ r.2.1.1 + size r.2 <= s + n.
Proof.
  revert s st. induction n as [|n IH]; intros s st Hs Hlen Hbest; simpl.
  - by rewrite Nat.add_0_r.
  - set (js := match a !! s with
               | Some elt => default [] (b2j !! elt)
               | None => []
               end).
    destruct (scan_row_bounds alo blo bhi s js st.1 ∅ st.2 Hs Hlen) as (H1 & H2 & H3).
    { intros j k. by rewrite lookup_empty. }
    { destruct Hbest. split; [done|lia]. }
    replace (s + S n) with (S s + n) by lia.
    apply IH; [lia| |].
    + intros j k Hj. apply H1 in Hj. lia.
    + split; [done|]. lia.
Qed.

Lemma scan_rows_bounds alo ahi blo bhi :
  alo <= ahi ->
  let m := scan_rows a b2j alo ahi blo bhi in
  alo <= m.1.1 /\ m.1.1 + size m <= ahi.
Proof.
  intros Hle. unfold scan_rows.
  pose proof (scan_rows_fold_bounds alo blo bhi (ahi - alo) alo (∅, (alo, blo, 0))) as H.
  simpl in H. replace (alo + (ahi - alo)) with ahi in H by lia.
  apply H; [done| |].
  - intros j k. by rewrite lookup_empty.
  - unfold size. simpl. lia.
Qed.

Lemma extend_left_bounds alo blo besti bestj bestsize :
  alo <= besti ->
  let m := extend_left a b alo blo besti bestj bestsize in
  alo <= m.1.1 /\ m.1.1 + size m = besti + bestsize.
Proof.
  revert bestj bestsize. induction besti as [|i' IH]; intros bestj bestsize Hle; simpl.
  - done.
  - destruct bestj as [|j']; [done|].
    destruct ((alo <? S i') && (blo <? S j') && same_at a b i' j') eqn:Hc; [|done].
    apply andb_true_iff in Hc as [Hc _]. apply andb_true_iff in Hc as [Hc _].
    apply Nat.ltb_lt in Hc.
    destruct (IH j' (bestsize + 1)) as [H1 H2]; [lia|]. split; [done|]. lia.
Qed.

Lemma extend_right_bounds room ahi bhi besti bestj bestsize :
  besti + bestsize <= ahi ->
  let m := extend_right a b room ahi bhi besti bestj bestsize in
  m.1.1 = besti /\ besti + size m <= ahi.
Proof.
  revert bestsize. induction room as [|room IH]; intros bestsize Hle; simpl; [done|].
  destruct ((besti + bestsize <? ahi) && (bestj + bestsize <? bhi)
            && same_at a b (besti + bestsize) (bestj + bestsize)) eqn:Hc; [|done].
  apply andb_true_iff in Hc as [Hc _]. apply andb_true_iff in Hc as [Hc _].
  apply Nat.ltb_lt in Hc. apply IH. lia.
Qed.

(** The block returned by [find_longest_match] lies in [a[alo:ahi]]. *)
Lemma find_longest_match_bounds alo ahi blo bhi :
  alo <= ahi ->
  let m := find_longest_match a b b2j alo ahi blo bhi in
  alo <= m.1.1 /\ m.1.1 + size m <= ahi.
Proof.
  intros Hle. unfold find_longest_match.
  pose proof (scan_rows_bounds alo ahi blo bhi Hle) as Hs. simpl in Hs.
  destruct (scan_rows a b2j alo ahi blo bhi) as [[bi bj] bk]. simpl in Hs.
  pose proof (extend_left_bounds alo blo bi bj bk (proj1 Hs)) as Hl. simpl in Hl.
  destruct (extend_left a b alo blo bi bj bk) as [[bi' bj'] bk']. unfold size in *.
  simpl in *.
  destruct (extend_right_bounds (ahi - (bi' + bk')) ahi bhi bi' bj' bk') as [H1 H2];
    [lia|]. unfold size in *. rewrite H1. split; [lia|done].
Qed.

Lemma queue_weight_cons alo ahi blo bhi queue :
  queue_weight ((alo, ahi, blo, bhi) :: queue)
  = 2 * (ahi - alo) + 1 + queue_weight queue.
Proof. reflexivity. Qed.

Lemma blocks_loop_fuel fuel extra queue acc :
  Forall (fun item : nat * nat * nat * nat => item.1.1.1 <= item.1.1.2) queue ->
  queue_weight queue <= fuel ->
  blocks_loop a b b2j (fuel + extra) queue acc = blocks_loop a b b2j fuel queue acc.
Proof.
  revert queue acc. induction fuel as [|fuel IH]; intros queue acc Hok Hw.
  - destruct queue as [|[[[alo ahi] blo] bhi] queue]; [by destruct extra|].
    rewrite queue_weight_cons in Hw. lia.
  - destruct queue as [|[[[alo ahi] blo] bhi] queue]; [done|]. simpl.
    apply Forall_cons in Hok as [Hle Hok]. simpl in Hle.
    pose proof (find_longest_match_bounds alo ahi blo bhi Hle) as Hb. simpl in Hb.
    destruct (find_longest_match a b b2j alo ahi blo bhi) as [[i j] k].
    unfold size in Hb. simpl in Hb.
    rewrite queue_weight_cons in Hw.
    destruct (0 <? k) eqn:Hk; [|apply IH; [done|lia]].
    apply Nat.ltb_lt in Hk.
    assert (alo < i -> i <= ahi) as Hleft by lia.
    apply IH.
    + destruct ((alo <? i) && (blo <? j)) eqn:H1;
        destruct ((i + k <? ahi) && (j + k <? bhi)) eqn:H2;
        repeat match goal with
               | H : _ && _ = true |- _ => apply andb_true_iff in H as [H _]
               | H : (_ <? _) = true |- _ => apply Nat.ltb_lt in H
               end;
        repeat (apply Forall_cons; split; [simpl; lia|]); done.
    + destruct ((alo <? i) && (blo <? j)) eqn:H1;
        destruct ((i + k <? ahi) && (j + k <? bhi)) eqn:H2;
        rewrite ?queue_weight_cons;
        repeat match goal with
               | H : _ && _ = true |- _ => apply andb_true_iff in H as [H _]
               | H : (_ <? _) = true |- _ => apply Nat.ltb_lt in H
               end; lia.
Qed.

(** The fuel of [matching_blocks] is never used up: more turns find the
    queue empty and change nothing. *)
Lemma matching_blocks_fuel extra :
  blocks_loop a b b2j (2 * length a + 1 + extra) [(0, length a, 0, length b)] []
  = matching_blocks a b b2j.
Proof.
  unfold matching_blocks. apply blocks_loop_fuel.
  - apply Forall_cons. split; [simpl; lia|done].
  - rewrite queue_weight_cons. change (queue_weight []) with 0. lia.
Qed.
End difflib_facts.

(** ** The scenarios of the two [__main__] blocks and of the [difflib] doctests *)

Example scenario_web_engine impl : run impl (py "WebEngine; AUTO") = Some (py "web_engine; AUTO").
Proof. destruct impl; vm_compute; reflexivity. Qed.

Example scenario_lock_screen impl :
  run impl (py "экран блокировки; дисплэй") = Some (py "lock_screen; display").
Proof. destruct impl; vm_compute; reflexivity. Qed.

Example scenario_qemu impl : run impl (py "КеМу") = Some (py "x86").
Proof. destruct impl; vm_compute; reflexivity. Qed.

Example scenario_display_svc impl : run impl (py "DisplaySvc") = Some (py "display; svc").
Proof. destruct impl; vm_compute; reflexivity. Qed.

Example scenario_trash impl : run impl (py "SomeTrashTag") = Some (py "").
Proof. destruct impl; vm_compute; reflexivity. Qed.

Example scenario_empty impl : run impl (py "") = Some (py "").
Proof. destruct impl; vm_compute; reflexivity. Qed.

Example scenario_unknown_lcd impl : run impl (py "unknown-tag; lcd") = Some (py "display").
Proof. destruct impl; vm_compute; reflexivity. Qed.

Example scenario_auto impl : run impl (py "auto") = Some (py "AUTO").
Proof. destruct impl; vm_compute; reflexivity. Qed.
Example doctest_find_longest_match :
  difflib.find_longest_match (py " abcd") (py "abcd abcd")
    (difflib.chain_b (py "abcd abcd")) 0 5 0 9 = (0, 4, 5).
Proof. vm_compute. reflexivity. Qed.

Example doctest_matching_blocks :
  difflib.matching_blocks (py "abxcd") (py "abcd") (difflib.chain_b (py "abcd"))
  = [(0, 0, 2); (3, 2, 2)].
Proof. vm_compute. reflexivity. Qed.

Example doctest_ratios :
  (difflib.ratio (py "abcd") (py "bcde") (difflib.chain_b (py "bcde")) == 75 # 100)%Q
  /\ (difflib.quick_ratio (py "abcd") (py "bcde") == 75 # 100)%Q
  /\ (difflib.real_quick_ratio (py "abcd") (py "bcde") == 1)%Q.
Proof. split; [|split]; vm_compute; reflexivity. Qed.

Example doctest_get_close_matches :
  difflib.get_close_matches (py "appel") [py "ape"; py "apple"; py "peach"; py "puppy"]
    (6 # 10)%Q = [py "apple"].
Proof. vm_compute. reflexivity. Qed.

(** The reconciliation compares verbatim: the cached key [display] is
    removed when [display] is resolved, the cached key [Display] stays. *)
Example reconciliation_is_verbatim :
  saved_cache <$>
    apply_tag_rules_of first latin_cyrillic ticking_clock
      (Some [(py "display", 0%Z); (py "Display", 0%Z)]) (py "lcd") demo_rules true
  = Ok [(py "Display", 0%Z)].
Proof. vm_compute. reflexivity. Qed.

(** * The claims *)

(** C1 (as stated, refuted).  [SomeTrashTag] is a key of the loaded cache,
    rejected at the instant 0, and fails the three resolution steps again;
    it is nevertheless handed to [find_best_match], and its entry is
    overwritten with the reading of the clock. *)
Lemma cached_token_is_matched_again_and_restamped :
  odict.get (py "SomeTrashTag") (delete_cache.load_cache trash_file) = Some 0%Z
  /\ unmatched first latin_cyrillic demo_index (py "SomeTrashTag")
  /\ exists o,
       apply_tag_rules_of first latin_cyrillic ticking_clock trash_file
         (py "SomeTrashTag") demo_rules true = Ok o
       /\ fuzzy_trace o = [py "SomeTrashTag"]
       /\ odict.get (py "SomeTrashTag") (saved_cache o) = Some 1001%Z
       /\ odict.get (py "SomeTrashTag") (saved_cache o)
          <> odict.get (py "SomeTrashTag") (delete_cache.load_cache trash_file).
Proof.
  split; [reflexivity|]. split.
  - split; [reflexivity|]. split; [reflexivity|].
    exists None. split; [vm_compute; reflexivity|reflexivity].
  - eexists. split; [vm_compute; reflexivity|].
    split; [reflexivity|]. split; [reflexivity|]. vm_compute. discriminate.
Qed.

(** C1 (amended).  With [delayed_clean], a token of the input that fails
    the exact lookup, the composite split and the fuzzy match is handed to
    [find_best_match] and ends in the saved cache with a timestamp read
    during the token loop of this call, whatever the loaded cache held for
    it. *)
Theorem unmatched_token_is_recorded_with_current_time
    (impl : implementation) (U : Unicode) (now : nat -> Z)
    (file : option delete_cache.json_object) (tags : pystr)
    (rules : list AllowedTagRecord) (t : pystr) :
  t ∈ tokens U tags ->
  unmatched impl U (allowed_tags_with_synonyms_of U rules) t ->
  exists o,
    apply_tag_rules_of impl U now file tags rules true = Ok o
    /\ t ∈ fuzzy_trace o
    /\ exists n, 1 <= n /\ odict.get t (saved_cache o) = Some (now n).
Proof.
  intros Ht (Hget & Hsplit & Hfuzzy).
  destruct (process_tags_of_total U impl now file tags rules true) as [st Hst].
  eexists. split; [by apply apply_tag_rules_Ok|]. simpl.
  destruct (process_tags_unmatched _ _ _ _ _ _ _ _ t eq_refl Hst Ht Hget Hsplit Hfuzzy)
    as [(n & Hn & Hg) Hf].
  split; [done|]. exists n. simpl in Hn. split; [lia|].
  unfold delete_cache.save_cache. rewrite get_reconcile.
  rewrite decide_False; [done|]. intros Hin.
  destruct (process_tags_results _ _ _ _ _ _ _ _
              (find_best_match_of_sound U impl _) Hst _ Hin) as [Hnil|Hval].
  - by apply elem_of_nil in Hnil.
  - apply index_value_key in Hval as [v Hv]. congruence.
Qed.

(** The theorem on the cached token [SomeTrashTag]. *)
Lemma unmatched_token_is_recorded_with_current_time_witness :
  exists o,
    apply_tag_rules_of first latin_cyrillic ticking_clock trash_file
      (py "SomeTrashTag") demo_rules true = Ok o
    /\ py "SomeTrashTag" ∈ fuzzy_trace o
    /\ exists n, 1 <= n
         /\ odict.get (py "SomeTrashTag") (saved_cache o) = Some (ticking_clock n).
Proof.
  apply (unmatched_token_is_recorded_with_current_time first latin_cyrillic).
  - vm_compute. apply list_elem_of_here.
  - split; [reflexivity|]. split; [reflexivity|].
    exists None. split; [vm_compute; reflexivity|reflexivity].
Defined.

(** C2 (as stated, refuted).  On the empty input the loop runs once, on
    the empty token: with [delayed_clean] an entry is added to the cache
    for it; and with a rule table that has an empty synonym the output is
    not empty. *)
Lemma empty_input_is_one_empty_token :
  apply_tag_rules_of first latin_cyrillic ticking_clock None (py "") demo_rules true
  = Ok {| final_tags_str := []; saved_cache := [([], 1001%Z)]; fuzzy_trace := [[]] |}
  /\ returned (apply_tag_rules_of first latin_cyrillic ticking_clock None (py "")
                 empty_synonym_rules false) = Some (py "sms").
Proof. split; vm_compute; reflexivity. Qed.

(** C2 (amended).  When the Synonym Index has no empty key, the empty
    input returns the empty string in both modules; the loop runs once, on
    the empty token, which reaches [find_best_match]; without
    [delayed_clean] the cleaned cache is saved as it is, with it the empty
    token is recorded with the reading of the clock. *)
Theorem empty_input_returns_empty_output
    (impl : implementation) (U : Unicode) (now : nat -> Z)
    (file : option delete_cache.json_object)
    (rules : list AllowedTagRecord) (delayed_clean : bool) :
  odict.get [] (allowed_tags_with_synonyms_of U rules) = None ->
  apply_tag_rules_of impl U now file [] rules delayed_clean
  = Ok {| final_tags_str := [];
          saved_cache :=
            let cleaned :=
              delete_cache.clean_cache (now 0) (delete_cache.load_cache file) in
            if delayed_clean then odict.set [] (now 1) cleaned else cleaned;
          fuzzy_trace := [[]] |}.
Proof.
  intros Hg. unfold apply_tag_rules_of, apply_tag_rules.
  change (split (py ";") []) with [@nil code]. simpl.
  unfold process_tag. change (strip (isspace U) []) with (@nil code).
  assert (normalize_tag U [] = []) as Hn by apply lower_nil.
  rewrite Hn, Hg.
  change (split_composite_tag U [] (allowed_tags_with_synonyms_of U rules))
    with (@nil pystr).
  rewrite (find_best_match_of_empty U impl [] _ Hn Hg). simpl.
  destruct delayed_clean; simpl; [|done].
  by rewrite reconcile_nil.
Qed.

(** The theorem on the rule table of the repository. *)
Lemma empty_input_returns_empty_output_witness :
  apply_tag_rules_of second latin_cyrillic ticking_clock trash_file [] demo_rules true
  = Ok {| final_tags_str := [];
          saved_cache :=
            let cleaned :=
              delete_cache.clean_cache (ticking_clock 0)
                (delete_cache.load_cache trash_file) in
            odict.set [] (ticking_clock 1) cleaned;
          fuzzy_trace := [[]] |}.
Proof.
  apply (empty_input_returns_empty_output second latin_cyrillic ticking_clock
           trash_file demo_rules true).
  reflexivity.
Defined.

(** C3 (as stated, refuted).  [DisplaySvc] and [displaysvc] have the same
    normal form; the first is split at its capitals into two names, the
    second is not split and gets one name from the fuzzy match. *)
Lemma same_normal_form_different_outcome :
  normalize_tag latin_cyrillic (py "DisplaySvc")
  = normalize_tag latin_cyrillic (py "displaysvc")
  /\ contribution first latin_cyrillic demo_index (py "DisplaySvc")
     = Ok [py "display"; py "svc"]
  /\ contribution first latin_cyrillic demo_index (py "displaysvc")
     = Ok [py "display"]
  /\ contribution first latin_cyrillic demo_index (py "DisplaySvc")
     <> contribution first latin_cyrillic demo_index (py "displaysvc").
Proof.
  split; [reflexivity|]. split; [vm_compute; reflexivity|].
  split; [vm_compute; reflexivity|]. vm_compute. discriminate.
Qed.

(** C3 (amended).  Two raw tokens with the same normal form add the same
    names to the result when that normal form is a key of the index, or
    when the composite splitter, which reads the raw capitals, gives the
    same names for both. *)
Theorem same_normal_form_same_outcome
    (impl : implementation) (U : Unicode) (index : odict.t pystr) (t1 t2 : pystr) :
  normalize_tag U (strip (isspace U) t1) = normalize_tag U (strip (isspace U) t2) ->
  (odict.get (normalize_tag U (strip (isspace U) t1)) index = None ->
   split_composite_tag U (strip (isspace U) t1) index
   = split_composite_tag U (strip (isspace U) t2) index) ->
  contribution impl U index t1 = contribution impl U index t2.
Proof.
  intros Hn Hs. unfold contribution, process_tag. rewrite <- Hn.
  destruct (odict.get _ index) eqn:Hg; [done|].
  rewrite <- (Hs eq_refl).
  destruct (split_composite_tag _ _ _); [|done].
  rewrite (find_best_match_of_normalized U impl _ _ index Hn).
  destruct (find_best_match_of _ _ _ _) as [r|e]; simpl; [|done].
  destruct (truthy_opt r); done.
Qed.

(** The theorem on two spellings of [lock_screen]. *)
Lemma same_normal_form_same_outcome_witness :
  contribution first latin_cyrillic demo_index (py "lock screen")
  = contribution first latin_cyrillic demo_index (py " Lock-Screen ").
Proof.
  apply (same_normal_form_same_outcome first latin_cyrillic demo_index).
  - reflexivity.
  - vm_compute. discriminate.
Defined.

(** C4 (as stated, refuted).  In the second module a key whose ratio is
    exactly 0.6 is accepted, and of two keys with the same ratio the later,
    greater one is returned, where the first module returns the first. *)
Lemma second_module_accepts_the_cutoff_and_prefers_the_greater_key :
  (difflib.ratio (py "abcxy") (py "abcde") (difflib.chain_b (py "abcde")) == 6 # 10)%Q
  /\ second_implementation.find_best_match latin_cyrillic (py "abcde")
       [(py "abcxy", py "abcxy")] = Ok (Some (py "abcxy"))
  /\ (difflib.ratio (py "abcdx") (py "abcde") (difflib.chain_b (py "abcde"))
      == difflib.ratio (py "abcdy") (py "abcde") (difflib.chain_b (py "abcde")))%Q
  /\ second_implementation.find_best_match latin_cyrillic (py "abcde")
       [(py "abcdx", py "abcdx"); (py "abcdy", py "abcdy")] = Ok (Some (py "abcdy"))
  /\ first_implementation.find_best_match latin_cyrillic (py "abcde")
       [(py "abcdx", py "abcdx"); (py "abcdy", py "abcdy")] = Ok (Some (py "abcdx")).
Proof.
  split; [vm_compute; reflexivity|]. split; [vm_compute; reflexivity|].
  split; [vm_compute; reflexivity|]. split; vm_compute; reflexivity.
Qed.

(** C4 (amended).  In the first module a key is a fuzzy match only with a
    score strictly above 0.6, and the first key of the greatest score, in
    the order of the index, is kept (the call raises exactly when the
    normalized token and a key are both empty).  In the second module a
    key is a match only with a ratio of at least 0.6, and of the keys that
    pass the cutoff the one of the greatest ratio is kept, the greatest in
    string order among equal ratios. *)
Theorem fuzzy_match_selection (U : Unicode) (tag : pystr) (index : odict.t pystr) :
  let nt := normalize_tag U tag in
  match first_implementation.find_best_match U tag index with
  | Ok r =>
      (r = None
       /\ forall k s, k ∈ odict.keys index ->
            first_implementation.is_tokens_fuzzy_equal nt k = Ok s -> (s <= 6 # 10)%Q)
      \/ (exists l1 k l2 s,
            odict.keys index = l1 ++ k :: l2
            /\ r = odict.get k index
            /\ first_implementation.is_tokens_fuzzy_equal nt k = Ok s
            /\ (6 # 10 < s)%Q
            /\ (forall k' s', k' ∈ l1 ->
                  first_implementation.is_tokens_fuzzy_equal nt k' = Ok s' -> (s' < s)%Q)
            /\ (forall k' s', k' ∈ l2 ->
                  first_implementation.is_tokens_fuzzy_equal nt k' = Ok s' -> (s' <= s)%Q))
  | Raise _ => nt = [] /\ [] ∈ odict.keys index
  end
  /\ ((second_implementation.find_best_match U tag index = Ok None
       /\ forall k, k ∈ odict.keys index ->
            difflib.close_enough (6 # 10) nt k = false)
      \/ (exists k,
            k ∈ odict.keys index
            /\ second_implementation.find_best_match U tag index = Ok (odict.get k index)
            /\ (6 # 10 <= difflib.ratio k nt (difflib.chain_b nt))%Q
            /\ forall k', k' ∈ odict.keys index ->
                 difflib.close_enough (6 # 10) nt k' = true ->
                 (difflib.ratio k' nt (difflib.chain_b nt)
                  < difflib.ratio k nt (difflib.chain_b nt))%Q
                 \/ ((difflib.ratio k' nt (difflib.chain_b nt)
                      == difflib.ratio k nt (difflib.chain_b nt))%Q
                     /\ (k' = k \/ str_ltb k' k = true)))).
Proof.
  intros nt. split.
  - unfold first_implementation.find_best_match. fold nt.
    destruct (first_implementation.best_loop nt (odict.keys index) None
                first_implementation.threshold) as [[bm bs]|e] eqn:Hloop; simpl.
    + apply best_loop_spec in Hloop
        as [(-> & -> & Hall)|(l1 & k & l2 & Hkeys & -> & Hk & Hlt & H1 & H2)].
      * left. split; [done|]. exact Hall.
      * assert (k <> []) as Hne.
        { intros ->. apply is_tokens_fuzzy_equal_nil_r in Hk. rewrite Hk in Hlt.
          apply (Qlt_irrefl 0). eapply Qlt_trans; [apply threshold_pos|done]. }
        destruct k as [|c k]; [done|]. simpl.
        right. exists l1, (c :: k), l2, bs. done.
    + destruct (decide (nt = [] /\ [] ∈ odict.keys index)) as [|Hno]; [done|].
      destruct (best_loop_total nt (odict.keys index) None first_implementation.threshold)
        as [r Hr]; [|congruence].
      intros k Hk. destruct (decide (nt = [])) as [Hnt|]; [|by left].
      right. intros ->. apply Hno. done.
  - unfold second_implementation.find_best_match. fold nt.
    destruct (get_close_matches_spec nt (odict.keys index) second_implementation.cutoff)
      as [[-> Hnone]|(k & -> & Hk & Hc & Hge & Hbest)].
    + left. done.
    + right. exists k. do 3 (split; [done|]).
      intros k' Hk' Hc'. specialize (Hbest k' Hk' Hc').
      apply not_true_iff_false in Hbest. rewrite pair_gtb_spec in Hbest. simpl in Hbest.
      destruct (Qlt_le_dec (difflib.ratio k' nt (difflib.chain_b nt))
                           (difflib.ratio k nt (difflib.chain_b nt))) as [?|Hle];
        [by left|right].
      assert (difflib.ratio k' nt (difflib.chain_b nt)
              == difflib.ratio k nt (difflib.chain_b nt))%Q as Heq.
      { apply Qle_antisym; [|done]. apply Qnot_lt_le. intros ?. apply Hbest. by left. }
      split; [done|].
      destruct (str_ltb_total k' k) as [?|[?|Hgt]]; [by right|by left|].
      exfalso. apply Hbest. right. done.
Qed.

(** C5.  When [delayed_clean] is true, the reconciliation step run after
    the token loop removes from the invalid-tag cache exactly the keys that
    are equal, verbatim, to a name of the resolved output sequence: the
    saved cache is the cache left by the loop, filtered (in order, values
    kept) by "the raw key is not among the resolved names". *)
Theorem reconciliation_removes_exactly_resolved_names
    (impl : implementation) (U : Unicode) (now : nat -> Z)
    (file : option delete_cache.json_object) (tags : pystr)
    (rules : list AllowedTagRecord) :
  exists st o,
    process_tags U (find_best_match_of impl U) now
      (allowed_tags_with_synonyms_of U rules) true
      (initial_state now file) (split (py ";") tags) = Ok st
    /\ apply_tag_rules_of impl U now file tags rules true = Ok o
    /\ final_tags_str o = join (py "; ") (fromkeys (result_tags st))
    /\ saved_cache o
       = filter (fun kv => kv.1 ∉ fromkeys (result_tags st)) (invalid_tags_cache st)
    /\ forall k,
         odict.get k (saved_cache o)
         = if decide (k ∈ fromkeys (result_tags st)) then None
           else odict.get k (invalid_tags_cache st).
Proof.
  destruct (process_tags_of_total U impl now file tags rules true) as [st Hst].
  eexists st, _. split; [exact Hst|].
  split; [by apply apply_tag_rules_Ok|]. simpl.
  split; [done|].
  assert (reconcile (result_tags st) (invalid_tags_cache st)
          = filter (fun kv => kv.1 ∉ fromkeys (result_tags st)) (invalid_tags_cache st))
    as Hrec.
  { rewrite reconcile_filter. apply list_filter_iff. intros kv.
    by rewrite elem_of_fromkeys. }
  split; [exact Hrec|].
  intros k. unfold delete_cache.save_cache. rewrite get_reconcile.
  apply decide_ext. by rewrite elem_of_fromkeys.
Qed.

(** C6.  With a clock that does not run backwards during the call, after
    every call of [apply_tag_rules] (whatever [delayed_clean]) the saved
    cache holds no entry whose timestamp is more than 14 days older than
    the time of the call; in particular an entry of the loaded cache that
    is that old is not in the saved cache, whether or not its token is in
    the input. *)
Theorem expired_entries_absent_after_call
    (impl : implementation) (U : Unicode) (now : nat -> Z)
    (file : option delete_cache.json_object) (tags : pystr)
    (rules : list AllowedTagRecord) (delayed_clean : bool) :
  (forall n, (now 0%nat <= now n)%Z) ->
  exists o,
    apply_tag_rules_of impl U now file tags rules delayed_clean = Ok o
    /\ (forall k stamp,
          odict.get k (saved_cache o) = Some stamp -> ~ expired (now 0) stamp)
    /\ (forall k stamp,
          odict.get k (delete_cache.load_cache file) = Some stamp ->
          expired (now 0) stamp ->
          odict.get k (saved_cache o) <> Some stamp).
Proof.
  intros Hclock.
  destruct (process_tags_of_total U impl now file tags rules delayed_clean) as [st Hst].
  eexists. split; [by apply apply_tag_rules_Ok|]. simpl.
  assert (forall k stamp,
            odict.get k (if delayed_clean
                         then reconcile (result_tags st) (invalid_tags_cache st)
                         else invalid_tags_cache st) = Some stamp ->
            ~ expired (now 0) stamp) as Hfresh.
  { intros k stamp Hg.
    assert (odict.get k (invalid_tags_cache st) = Some stamp) as Hg'.
    { destruct delayed_clean; [|done]. rewrite get_reconcile in Hg. by case_decide. }
    clear Hg. apply process_tags_cache in Hst as [_ Hcache].
    unfold expired, delete_cache.timedelta_days, delete_cache.CACHE_EXPIRATION_DAYS.
    destruct (Hcache k) as [Heq|(n & _ & Hn)].
    - rewrite Heq in Hg'. simpl in Hg'. rewrite get_clean_cache in Hg'.
      destruct (odict.get k (delete_cache.load_cache file)) as [s|] eqn:Hl;
        simpl in Hg'; [|done].
      destruct (_ <? _)%Z eqn:Hexp; [done|]. simplify_eq.
      apply Z.ltb_ge in Hexp.
      unfold delete_cache.timedelta_days, delete_cache.CACHE_EXPIRATION_DAYS in Hexp.
      lia.
    - rewrite Hn in Hg'. simplify_eq. specialize (Hclock n). lia. }
  split; [exact Hfresh|].
  intros k stamp _ Hexp Hg. by apply (Hfresh k stamp).
Qed.

(** The theorem on an expired entry and a clock fifteen days later. *)
Lemma expired_entries_absent_after_call_witness :
  exists o,
    apply_tag_rules_of first latin_cyrillic late_clock
      (Some [(py "SomeTrashTag", 0%Z)]) (py "SomeTrashTag; lcd") demo_rules true = Ok o
    /\ (forall k stamp,
          odict.get k (saved_cache o) = Some stamp -> ~ expired (late_clock 0) stamp)
    /\ (forall k stamp,
          odict.get k (delete_cache.load_cache (Some [(py "SomeTrashTag", 0%Z)]))
          = Some stamp ->
          expired (late_clock 0) stamp ->
          odict.get k (saved_cache o) <> Some stamp).
Proof.
  apply (expired_entries_absent_after_call first latin_cyrillic late_clock).
  intros n. unfold late_clock. lia.
Defined.

(** C7.  On two empty strings the Tanimoto scorer divides zero by zero:
    the call raises [ZeroDivisionError] instead of returning the score 0. *)
Theorem is_tokens_fuzzy_equal_empty_raises :
  first_implementation.is_tokens_fuzzy_equal [] [] = Raise ZeroDivisionError.
Proof. reflexivity. Qed.

(** C8 (as stated, refuted).  The only token of the input is the allowed
    name [sms], but the synonym [SMS] of a later rule has taken its key:
    the call returns [text]. *)
Lemma canonical_name_overwritten_by_synonym :
  tokens latin_cyrillic (py "sms") = [py "sms"]
  /\ py "sms" ∈ allowed_name <$> colliding_rules
  /\ returned (apply_tag_rules_of first latin_cyrillic ticking_clock None (py "sms")
                 colliding_rules false) = Some (py "text")
  /\ py "text" <> py "sms".
Proof.
  split; [reflexivity|]. split; [apply list_elem_of_here|].
  split; [vm_compute; reflexivity|]. vm_compute. discriminate.
Qed.

(** C8 (amended).  For a rule table without collisions (no allowed name or
    synonym of another name normalizes to the key of an allowed name), an
    input whose tokens are all allowed names is returned as these names,
    deduplicated by first occurrence and joined with "; ". *)
Theorem canonical_list_is_returned_unchanged
    (impl : implementation) (U : Unicode) (now : nat -> Z)
    (file : option delete_cache.json_object) (tags : pystr)
    (rules : list AllowedTagRecord) (delayed_clean : bool) :
  collision_free U rules = true ->
  (forall t, t ∈ tokens U tags -> t ∈ allowed_name <$> rules) ->
  exists o,
    apply_tag_rules_of impl U now file tags rules delayed_clean = Ok o
    /\ final_tags_str o = join (py "; ") (fromkeys (tokens U tags))
    /\ fuzzy_trace o = [].
Proof.
  intros Hfree Hall.
  eexists. split.
  - apply apply_tag_rules_Ok. apply process_tags_exact.
    intros t Ht. apply Hall in Ht. apply list_elem_of_fmap in Ht as (r & -> & Hr).
    by apply collision_free_get.
  - done.
Qed.

(** The theorem on a list of canonical names with a repetition. *)
Lemma canonical_list_is_returned_unchanged_witness :
  exists o,
    apply_tag_rules_of first latin_cyrillic ticking_clock None
      (py "web_engine;AUTO ; web_engine") demo_rules true = Ok o
    /\ final_tags_str o
       = join (py "; ") (fromkeys (tokens latin_cyrillic (py "web_engine;AUTO ; web_engine")))
    /\ fuzzy_trace o = [].
Proof.
  apply (canonical_list_is_returned_unchanged first latin_cyrillic).
  - reflexivity.
  - intros t Ht.
    assert (Forall (fun t => t ∈ allowed_name <$> demo_rules)
              (tokens latin_cyrillic (py "web_engine;AUTO ; web_engine"))) as HF.
    { apply (bool_decide_unpack _). vm_compute. exact I. }
    rewrite Forall_forall in HF. by apply HF.
Defined.

(** C9 (as stated, refuted).  On the token [srv] and the rule table of the
    repository the first module finds no match and returns the empty
    string, the second returns [svc]. *)
Lemma the_two_modules_differ :
  returned (apply_tag_rules_of first latin_cyrillic ticking_clock None (py "srv")
              demo_rules false) = Some (py "")
  /\ returned (apply_tag_rules_of second latin_cyrillic ticking_clock None (py "srv")
                 demo_rules false) = Some (py "svc")
  /\ py "" <> py "svc".
Proof.
  split; [vm_compute; reflexivity|]. split; [vm_compute; reflexivity|].
  vm_compute. discriminate.
Qed.

(** C9 (amended).  The two modules differ in [find_best_match] only: they
    return the same string, and leave the same cache, on every input on
    which the two matchers agree for the tokens that fail the exact lookup
    and the composite split. *)
Theorem modules_agree_where_matchers_agree
    (U : Unicode) (now : nat -> Z)
    (file : option delete_cache.json_object) (tags : pystr)
    (rules : list AllowedTagRecord) (delayed_clean : bool) :
  (forall t, t ∈ tokens U tags ->
     odict.get (normalize_tag U t) (allowed_tags_with_synonyms_of U rules) = None ->
     split_composite_tag U t (allowed_tags_with_synonyms_of U rules) = [] ->
     first_implementation.find_best_match U t (allowed_tags_with_synonyms_of U rules)
     = second_implementation.find_best_match U t (allowed_tags_with_synonyms_of U rules)) ->
  first_implementation.apply_tag_rules U now file tags rules delayed_clean
  = second_implementation.apply_tag_rules U now file tags rules delayed_clean.
Proof.
  intros Hagree.
  unfold first_implementation.apply_tag_rules, second_implementation.apply_tag_rules,
    apply_tag_rules.
  by rewrite (process_tags_ext U now _ delayed_clean
                (first_implementation.find_best_match U)
                (second_implementation.find_best_match U) _ _ Hagree).
Qed.

(** The theorem on the first scenario of the repository. *)
Lemma modules_agree_where_matchers_agree_witness :
  first_implementation.apply_tag_rules latin_cyrillic ticking_clock None
    (py "WebEngine; AUTO") demo_rules true
  = second_implementation.apply_tag_rules latin_cyrillic ticking_clock None
      (py "WebEngine; AUTO") demo_rules true.
Proof.
  apply (modules_agree_where_matchers_agree latin_cyrillic ticking_clock None
           (py "WebEngine; AUTO") demo_rules true).
  intros t Ht _ _.
  assert (t = py "WebEngine" \/ t = py "AUTO") as [->| ->].
  { apply list_elem_of_In in Ht. vm_compute in Ht.
    destruct Ht as [<-|[<-|[]]]; [left|right]; vm_compute; reflexivity. }
  - vm_compute. reflexivity.
  - vm_compute. reflexivity.
Defined.

(** C10.  The returned string depends neither on the content of the cache
    file nor on the clock: two calls with the same tags, rules and flag
    return, and return the same string. *)
Theorem output_independent_of_cache
    (impl : implementation) (U : Unicode) (now1 now2 : nat -> Z)
    (file1 file2 : option delete_cache.json_object) (tags : pystr)
    (rules : list AllowedTagRecord) (delayed_clean : bool) :
  exists s,
    final_tags_str <$> apply_tag_rules_of impl U now1 file1 tags rules delayed_clean = Ok s
    /\ final_tags_str <$> apply_tag_rules_of impl U now2 file2 tags rules delayed_clean = Ok s.
Proof.
  destruct (process_tags_of_total U impl now1 file1 tags rules delayed_clean) as [st1 H1].
  destruct (process_tags_of_total U impl now2 file2 tags rules delayed_clean) as [st2 H2].
  pose proof (process_tags_view U (find_best_match_of impl U) now1 now2
                (allowed_tags_with_synonyms_of U rules) delayed_clean
                (split (py ";") tags) (initial_state now1 file1) (initial_state now2 file2))
    as Hview.
  rewrite H1, H2 in Hview. destruct Hview as [Hres _]; [done|].
  exists (join (py "; ") (fromkeys (result_tags st1))).
  unfold apply_tag_rules_of.
  rewrite (apply_tag_rules_Ok _ _ _ _ _ _ _ _ H1), (apply_tag_rules_Ok _ _ _ _ _ _ _ _ H2).
  simpl. by rewrite Hres.
Qed.

(** * Further properties of the code *)

(** ** Keys of a dictionary *)

Section keys_facts.
Context {V : Type}.
Implicit Types (d : odict.t V) (k : pystr) (v : V).

Lemma set_fresh k v d : k ∉ odict.keys d -> odict.set k v d = d ++ [(k, v)].
Proof.
  induction d as [|[k' v'] d IH]; simpl; [done|].
  rewrite not_elem_of_cons. intros [Hne Hk].
  rewrite (str_eqb_ne _ _ Hne). by rewrite IH.
Qed.

Lemma keys_set_old k v d : k ∈ odict.keys d -> odict.keys (odict.set k v d) = odict.keys d.
Proof.
  induction d as [|[k' v'] d IH]; simpl.
  - by intros ?%elem_of_nil.
  - destruct (decide (k = k')) as [->|Hne].
    + by rewrite str_eqb_refl.
    + rewrite (str_eqb_ne _ _ Hne). intros [?|Hk]%elem_of_cons; [done|].
      simpl. by rewrite IH.
Qed.

Lemma keys_set k v d :
  odict.keys (odict.set k v d)
  = if bool_decide (k ∈ odict.keys d) then odict.keys d else odict.keys d ++ [k].
Proof.
  case_bool_decide as Hk.
  - by apply keys_set_old.
  - rewrite set_fresh by done. unfold odict.keys. by rewrite map_app.
Qed.

Lemma NoDup_keys_set k v d :
  NoDup (odict.keys d) -> NoDup (odict.keys (odict.set k v d)).
Proof.
  intros Hd. rewrite keys_set. case_bool_decide as Hk; [done|].
  apply NoDup_app. split; [done|]. split; [|apply NoDup_singleton].
  intros x Hx ->%list_elem_of_singleton. done.
Qed.

Lemma keys_filter (P : pystr -> Prop) `{!forall k, Decision (P k)} d :
  odict.keys (filter (fun kv => P kv.1) d) = filter P (odict.keys d).
Proof.
  induction d as [|[k v] d IH]; simpl; [done|].
  rewrite !filter_cons. simpl. destruct (decide (P k)); simpl; by rewrite IH.
Qed.

Lemma NoDup_keys_del k d : NoDup (odict.keys d) -> NoDup (odict.keys (odict.del k d)).
Proof.
  intros Hd. induction d as [|[k' v'] d IH]; simpl; [done|].
  simpl in Hd. apply NoDup_cons in Hd as [Hk' Hd].
  destruct (str_eqb k k'); [by apply IH|]. simpl. apply NoDup_cons. split; [|by apply IH].
  intros Hin. apply Hk'. clear -Hin.
  induction d as [|[k0 v0] d IH]; simpl in *; [done|].
  destruct (str_eqb k k0); [apply list_elem_of_further; by apply IH|].
  simpl in Hin. apply elem_of_cons in Hin as [->|Hin]; [apply list_elem_of_here|].
  apply list_elem_of_further. by apply IH.
Qed.

(** Assigning the members of a dictionary with distinct keys, in order,
    rebuilds it. *)
Lemma fold_set_rebuilds (l d : odict.t V) :
  NoDup (odict.keys (d ++ l)) ->
  fold_left (fun d kv => odict.set kv.1 kv.2 d) l d = d ++ l.
Proof.
  revert d. induction l as [|[k v] l IH]; intros d Hnd; simpl.
  - by rewrite app_nil_r.
  - assert (k ∉ odict.keys d) as Hk.
    { unfold odict.keys in *. rewrite map_app in Hnd. simpl in Hnd.
      apply NoDup_app in Hnd as (_ & Hdisj & _). intros Hin.
      apply (Hdisj k Hin). apply list_elem_of_here. }
    rewrite set_fresh by done. rewrite IH; rewrite <- app_assoc; done.
Qed.

Lemma NoDup_keys_fold_set (l d : odict.t V) :
  NoDup (odict.keys d) ->
  NoDup (odict.keys (fold_left (fun d kv => odict.set kv.1 kv.2 d) l d)).
Proof.
  revert d. induction l as [|[k v] l IH]; intros d Hd; simpl; [done|].
  apply IH. by apply NoDup_keys_set.
Qed.
End keys_facts.

Lemma fromkeys_fold (l : list pystr) (d : odict.t unit) :
  odict.keys (fold_left (fun d k => odict.set k () d) l d)
  = odict.keys d ++ filter (fun y => y ∉ odict.keys d) (fromkeys l).
Proof.
  unfold fromkeys. revert d. induction l as [|k l IH]; intros d; simpl.
  - by rewrite app_nil_r.
  - rewrite (IH (odict.set k () d)), (IH [(k, ())]). simpl.
    rewrite keys_set. case_bool_decide as Hk.
    + f_equal. rewrite filter_cons_False by (intros Hn; by apply Hn).
      rewrite list_filter_filter. apply list_filter_iff. intros y.
      rewrite not_elem_of_cons, elem_of_nil. split; [|tauto].
      intros Hy. split; [done|]. split; [|tauto]. by intros ->.
    + rewrite <- app_assoc. simpl. f_equal.
      rewrite filter_cons_True by done. f_equal.
      rewrite list_filter_filter. apply list_filter_iff. intros y.
      rewrite elem_of_app, !list_elem_of_singleton. tauto.
Qed.

Lemma NoDup_fromkeys l : NoDup (fromkeys l).
Proof.
  unfold fromkeys.
  assert (forall d : odict.t unit,
            NoDup (odict.keys d) ->
            NoDup (odict.keys (fold_left (fun d k => odict.set k () d) l d))) as H.
  { induction l as [|k l IH]; intros d Hd; simpl; [done|].
    apply IH. by apply NoDup_keys_set. }
  apply H. constructor.
Qed.

(** X1.  [list(OrderedDict.fromkeys(result_tags))] keeps one copy of every
    name, at the place of its first occurrence: the result has no
    duplicates, holds the names of the list and no others, and a list that
    starts with [x] gives [x] followed by the other names of the rest. *)
Theorem fromkeys_keeps_first_occurrences (x : pystr) (l : list pystr) :
  fromkeys [] = []
  /\ fromkeys (x :: l) = x :: filter (fun y => y <> x) (fromkeys l)
  /\ NoDup (fromkeys l)
  /\ forall y, y ∈ fromkeys l <-> y ∈ l.
Proof.
  split; [done|]. split; [|split; [apply NoDup_fromkeys|apply elem_of_fromkeys]].
  unfold fromkeys at 1. simpl.
  rewrite (fromkeys_fold l [(x, ())]). simpl. f_equal.
  apply list_filter_iff. intros y. rewrite not_elem_of_cons, elem_of_nil. tauto.
Qed.

(** ** The cache across a call *)

Section cache_call_facts.
Variable U : Unicode.

Lemma NoDup_keys_load file : NoDup (odict.keys (delete_cache.load_cache file)).
Proof.
  destruct file as [members|]; simpl; [|constructor].
  apply NoDup_keys_fold_set. constructor.
Qed.

Lemma NoDup_keys_clean now0 (c : odict.t Z) :
  NoDup (odict.keys c) -> NoDup (odict.keys (delete_cache.clean_cache now0 c)).
Proof.
  unfold delete_cache.clean_cache. generalize (odict.keys c) at 2 as ks.
  intros ks. revert c. induction ks as [|t ks IH]; intros c Hc; simpl; [done|].
  apply IH. destruct (odict.get t c); [|done].
  destruct (_ <? _)%Z; [|done]. by apply NoDup_keys_del.
Qed.

Lemma NoDup_keys_reconcile rs (c : odict.t Z) :
  NoDup (odict.keys c) -> NoDup (odict.keys (reconcile rs c)).
Proof.
  intros Hc. rewrite reconcile_filter.
  pose proof (keys_filter (fun k => k ∉ rs) c) as Hk. simpl in Hk. rewrite Hk.
  by apply NoDup_filter.
Qed.

Lemma NoDup_keys_process_tags fbm now index dc st tags st' :
  process_tags U fbm now index dc st tags = Ok st' ->
  NoDup (odict.keys (invalid_tags_cache st)) ->
  NoDup (odict.keys (invalid_tags_cache st')).
Proof.
  revert st. induction tags as [|tag rest IH]; intros st H Hnd.
  - simpl in H. by simplify_eq.
  - apply process_tags_cons in H as (st1 & H1 & H2). apply (IH _ H2).
    apply process_tag_cases in H1.
    destruct H1 as [(name & _ & ->)|[(_ & _ & ->)|(_ & _ & r & _ & [[_ ->]|[_ ->]])]];
      simpl; try done.
    destruct dc; simpl; [|done]. by apply NoDup_keys_set.
Qed.

(** What the loop writes: a changed entry belongs to a token of the input
    that failed the three resolution steps, and holds a reading of the
    clock taken during the loop. *)
Lemma process_tags_provenance impl now index dc st tags st' :
  process_tags U (find_best_match_of impl U) now index dc st tags = Ok st' ->
  forall k,
    odict.get k (invalid_tags_cache st') = odict.get k (invalid_tags_cache st)
    \/ (k ∈ strip (isspace U) <$> tags
        /\ unmatched impl U index k
        /\ exists n, ticks st <= n < ticks st'
             /\ odict.get k (invalid_tags_cache st') = Some (now n)).
Proof.
  revert st. induction tags as [|tag rest IH]; intros st H k.
  - simpl in H. simplify_eq. by left.
  - apply process_tags_cons in H as (st1 & H1 & H2).
    pose proof (process_tag_cache _ _ _ _ _ _ _ _ H1) as [Ht1 _].
    pose proof (process_tags_cache _ _ _ _ _ _ _ _ H2) as [Ht2 _].
    destruct (IH _ H2 k) as [Heq|(Hin & Hun & n & Hn & Hg)].
    2:{ right. split; [rewrite fmap_cons; by apply list_elem_of_further|].
        split; [done|]. exists n. split; [lia|done]. }
    rewrite Heq. clear Heq.
    apply process_tag_cases in H1.
    destruct H1 as [(name & _ & ->)|[(_ & _ & ->)
                    |(Hget & Hsplit & r & Hr & [[_ ->]|[Hfalsy ->]])]];
      simpl; try (by left).
    destruct dc; simpl; [|by left].
    rewrite get_set. case_decide as Hk; [|by left]. subst k. right.
    split; [apply list_elem_of_here|].
    split; [by repeat split; eauto|].
    exists (ticks st). simpl in Ht2. split; [lia|done].
Qed.


Lemma index_values_allowed rules name :
  name ∈ odict.values (allowed_tags_with_synonyms_of U rules) ->
  name ∈ allowed_name <$> rules.
Proof.
  intros (kv & -> & Hkv)%list_elem_of_fmap. destruct kv as [k v]. simpl.
  rewrite index_as_writes in Hkv.
  apply elem_of_fold_writes in Hkv as [Hkv|Hkv]; [|by apply elem_of_nil in Hkv].
  apply index_writes_values in Hkv as (r & Hr & ->).
  apply list_elem_of_fmap. eauto.
Qed.
End cache_call_facts.


(** X3.  The returned string is a list, joined with "; ", of names without
    repetition, each of which is the [allowed_name] of a rule of the
    table. *)
Theorem output_names_are_allowed_names
    (impl : implementation) (U : Unicode) (now : nat -> Z)
    (file : option delete_cache.json_object) (tags : pystr)
    (rules : list AllowedTagRecord) (delayed_clean : bool) :
  exists o names,
    apply_tag_rules_of impl U now file tags rules delayed_clean = Ok o
    /\ final_tags_str o = join (py "; ") names
    /\ NoDup names
    /\ forall name, name ∈ names -> name ∈ allowed_name <$> rules.
Proof.
  destruct (process_tags_of_total U impl now file tags rules delayed_clean) as [st Hst].
  eexists _, (fromkeys (result_tags st)).
  split; [by apply apply_tag_rules_Ok|]. simpl.
  split; [done|]. split; [apply NoDup_fromkeys|].
  intros name Hn. rewrite elem_of_fromkeys in Hn.
  destruct (process_tags_results _ _ _ _ _ _ _ _
              (find_best_match_of_sound U impl _) Hst _ Hn) as [Hnil|Hval].
  - by apply elem_of_nil in Hnil.
  - by apply index_values_allowed in Hval.
Qed.

(** X4.  Without [delayed_clean] a call writes nothing to the cache: the
    file is saved as [clean_cache] leaves the loaded one. *)
Theorem without_delayed_clean_cache_is_only_cleaned
    (impl : implementation) (U : Unicode) (now : nat -> Z)
    (file : option delete_cache.json_object) (tags : pystr)
    (rules : list AllowedTagRecord) :
  exists o,
    apply_tag_rules_of impl U now file tags rules false = Ok o
    /\ saved_cache o = cleaned_cache now file.
Proof.
  destruct (process_tags_of_total U impl now file tags rules false) as [st Hst].
  eexists. split; [by apply apply_tag_rules_Ok|]. simpl.
  apply process_tags_no_delayed_clean in Hst as [Hc _]; [|done].
  unfold delete_cache.save_cache. by rewrite Hc.
Qed.

(** X5.  Every entry of the saved cache is either an entry of the loaded
    cache that survived the cleaning, timestamp unchanged, or, with
    [delayed_clean], the entry of a trimmed token of the input that failed
    the exact lookup, the composite split and the fuzzy match, stamped by
    a reading of the clock taken during the loop. *)
Theorem saved_entries_are_survivors_or_rejected_tokens
    (impl : implementation) (U : Unicode) (now : nat -> Z)
    (file : option delete_cache.json_object) (tags : pystr)
    (rules : list AllowedTagRecord) (delayed_clean : bool) :
  exists o,
    apply_tag_rules_of impl U now file tags rules delayed_clean = Ok o
    /\ forall k stamp,
         odict.get k (saved_cache o) = Some stamp ->
         odict.get k (cleaned_cache now file) = Some stamp
         \/ (delayed_clean = true
             /\ k ∈ tokens U tags
             /\ unmatched impl U (allowed_tags_with_synonyms_of U rules) k
             /\ exists n, 1 <= n /\ stamp = now n).
Proof.
  destruct (process_tags_of_total U impl now file tags rules delayed_clean) as [st Hst].
  eexists. split; [by apply apply_tag_rules_Ok|]. simpl.
  intros k stamp Hg.
  destruct delayed_clean.
  - unfold delete_cache.save_cache in Hg. rewrite get_reconcile in Hg.
    case_decide; [done|].
    destruct (process_tags_provenance U _ _ _ _ _ _ _ Hst k)
      as [Heq|(Hin & Hun & n & Hn & Hk)].
    + left. rewrite Heq in Hg. exact Hg.
    + right. rewrite Hk in Hg. simplify_eq. simpl in Hn.
      do 3 (split; [done|]). exists n. split; [lia|done].
  - left. apply process_tags_no_delayed_clean in Hst as [Hc _]; [|done].
    unfold delete_cache.save_cache in Hg. rewrite Hc in Hg. exact Hg.
Qed.

(** X6.  The cache file written by a call holds every key once, and the
    next [load_cache] reads it back as the very dictionary that was
    saved. *)
Theorem saved_cache_is_loaded_back_unchanged
    (impl : implementation) (U : Unicode) (now : nat -> Z)
    (file : option delete_cache.json_object) (tags : pystr)
    (rules : list AllowedTagRecord) (delayed_clean : bool) :
  exists o,
    apply_tag_rules_of impl U now file tags rules delayed_clean = Ok o
    /\ NoDup (odict.keys (saved_cache o))
    /\ delete_cache.load_cache (Some (saved_cache o)) = saved_cache o.
Proof.
  destruct (process_tags_of_total U impl now file tags rules delayed_clean) as [st Hst].
  eexists. split; [by apply apply_tag_rules_Ok|]. simpl.
  assert (NoDup (odict.keys (invalid_tags_cache st))) as Hnd.
  { apply (NoDup_keys_process_tags _ _ _ _ _ _ _ _ Hst). simpl.
    apply NoDup_keys_clean, NoDup_keys_load. }
  assert (NoDup (odict.keys (if delayed_clean
                             then reconcile (result_tags st) (invalid_tags_cache st)
                             else invalid_tags_cache st))) as Hsaved.
  { destruct delayed_clean; [by apply NoDup_keys_reconcile|done]. }
  split; [done|]. unfold delete_cache.save_cache.
  by apply (fold_set_rebuilds _ []).
Qed.

(** X7.  [clean_cache] keeps an entry, with its timestamp, exactly when it
    is at most 14 days old at the time of the cleaning; an entry that is 14
    days old to the microsecond stays. *)
Theorem clean_cache_keeps_exactly_the_fresh_entries
    (current_time : Z) (invalid_tags : odict.t Z) (k : pystr) (stamp : Z) :
  odict.get k (delete_cache.clean_cache current_time invalid_tags) = Some stamp
  <-> odict.get k invalid_tags = Some stamp
      /\ (current_time - stamp <= 14 * 86400 * 1000000)%Z.
Proof.
  rewrite get_clean_cache.
  destruct (odict.get k invalid_tags) as [s|]; simpl;
    [|split; [done|by intros [? _]]].
  unfold delete_cache.timedelta_days, delete_cache.CACHE_EXPIRATION_DAYS.
  destruct (14 * 86400 * 1000000 <? current_time - s)%Z eqn:Hexp.
  - apply Z.ltb_lt in Hexp. split; [done|]. intros [[= ->] ?]. lia.
  - apply Z.ltb_ge in Hexp. split; [intros [= ->]; split; [done|lia]|by intros [? _]].
Qed.

(** ** The resolver, token by token *)

Section resolver_facts.
Variable U : Unicode.

Lemma process_tag_contribution impl now index dc st tag st1 :
  process_tag U (find_best_match_of impl U) now index dc st tag = Ok st1 ->
  exists l, contribution impl U index tag = Ok l
            /\ result_tags st1 = result_tags st ++ l.
Proof.
  unfold contribution, process_tag.
  destruct (odict.get _ index) as [name|].
  { intros [= <-]. by eexists. }
  destruct (split_composite_tag U _ index) as [|p ps].
  2:{ intros [= <-]. by eexists. }
  destruct (find_best_match_of impl U _ index) as [r|e]; simpl; [|done].
  destruct (truthy_opt r).
  { intros [= <-]. by eexists. }
  destruct dc; intros [= <-]; exists []; simpl; by rewrite app_nil_r.
Qed.

Lemma process_tags_contributions impl now index dc st tags st' :
  process_tags U (find_best_match_of impl U) now index dc st tags = Ok st' ->
  exists ls, Forall2 (fun t l => contribution impl U index t = Ok l) tags ls
             /\ result_tags st' = result_tags st ++ concat ls.
Proof.
  revert st. induction tags as [|tag rest IH]; intros st H.
  - simpl in H. simplify_eq. exists []. split; [constructor|]. simpl. by rewrite app_nil_r.
  - apply process_tags_cons in H as (st1 & H1 & H2).
    apply process_tag_contribution in H1 as (l & Hl & Hr1).
    apply IH in H2 as (ls & Hls & Hr2).
    exists (l :: ls). split; [by constructor|].
    simpl. by rewrite Hr2, Hr1, <- app_assoc.
Qed.

Lemma process_tags_lookups fbm now index dc st tags names :
  Forall2 (fun t name => odict.get (normalize_tag U t) index = Some name)
          (strip (isspace U) <$> tags) names ->
  process_tags U fbm now index dc st tags = Ok (add_results names st).
Proof.
  revert st names. induction tags as [|tag rest IH]; intros st names HF.
  - apply Forall2_nil_inv_l in HF as ->. simpl. destruct st. unfold add_results. simpl.
    by rewrite app_nil_r.
  - rewrite fmap_cons in HF.
    apply Forall2_cons_inv_l in HF as (name & names' & Hg & HF & ->).
    simpl. unfold process_tag at 1. rewrite Hg. simpl.
    rewrite (IH _ _ HF). unfold add_results. simpl. by rewrite <- app_assoc.
Qed.

Lemma fold_writes_untouched (ws : list (pystr * pystr)) d k :
  k ∉ ws.*1 ->
  odict.get k (fold_left (fun d kv => odict.set kv.1 kv.2 d) ws d) = odict.get k d.
Proof.
  revert d. induction ws as [|[k' v] ws IH]; intros d Hk; simpl; [done|].
  rewrite fmap_cons, not_elem_of_cons in Hk. destruct Hk as [Hne Hk]. simpl in Hne.
  rewrite IH by done. simpl. by rewrite get_set_ne.
Qed.

Lemma keys_fold_writes (ws : list (pystr * pystr)) (d : odict.t pystr) (d' : odict.t unit) :
  odict.keys d = odict.keys d' ->
  odict.keys (fold_left (fun d kv => odict.set kv.1 kv.2 d) ws d)
  = odict.keys (fold_left (fun d k => odict.set k () d) ws.*1 d').
Proof.
  revert d d'. induction ws as [|[k v] ws IH]; intros d d' Hk; simpl; [done|].
  apply IH. simpl. by rewrite !keys_set, Hk.
Qed.

Lemma composite_scan (tag done_ : pystr) (parts : list pystr) (cur : pystr)
    (parts' : list pystr) (cur' : pystr) :
  let good p := p <> [] /\ Forall (fun c => isupper U c = false) (tail p) in
  let capital p := exists c p', p = c :: p' /\ isupper U c = true in
  fold_left (split_step U) tag (parts, cur) = (parts', cur') ->
  concat parts ++ cur = done_ ->
  Forall good parts ->
  Forall (fun c => isupper U c = false) (tail cur) ->
  Forall capital (tail parts) ->
  (parts <> [] -> capital cur) ->
  concat parts' ++ cur' = done_ ++ tag
  /\ Forall good parts'
  /\ Forall (fun c => isupper U c = false) (tail cur')
  /\ Forall capital (tail parts')
  /\ (parts' <> [] -> capital cur').
Proof.
  intros good capital. revert done_ parts cur.
  induction tag as [|c tag IH]; intros done_ parts cur Hfold Hcat Hgood Hcur Hcap Hhead;
    simpl in Hfold.
  - simplify_eq. by rewrite app_nil_r.
  - destruct (isupper U c && truthy cur) eqn:Hc.
    + apply andb_true_iff in Hc as [Hup Htr].
      assert (cur <> []) as Hne by (by destruct cur).
      replace (done_ ++ c :: tag) with ((done_ ++ [c]) ++ tag) by (by rewrite <- app_assoc).
      apply (IH _ _ _ Hfold).
      * rewrite concat_app. simpl. rewrite app_nil_r, <- Hcat. by rewrite <- !app_assoc.
      * apply Forall_app. split; [done|]. by apply Forall_singleton.
      * done.
      * destruct parts as [|p parts]; simpl; [done|].
        simpl in Hcap. apply Forall_app. split; [done|].
        apply Forall_singleton. by apply Hhead.
      * intros _. by exists c, [].
    + replace (done_ ++ c :: tag) with ((done_ ++ [c]) ++ tag) by (by rewrite <- app_assoc).
      apply (IH _ _ _ Hfold); try done.
      * by rewrite <- Hcat, <- !app_assoc.
      * destruct cur as [|c0 cur]; simpl; [done|].
        simpl in Hcur. apply Forall_app. split; [done|]. apply Forall_singleton.
        simpl in Hc. rewrite andb_true_r in Hc. done.
      * intros Hp. destruct (Hhead Hp) as (c0 & p' & -> & Hup). by exists c0, (p' ++ [c]).
Qed.
End resolver_facts.

(** X8.  The call resolves its tokens one by one, in the order of the
    input: the returned string is the deduplicated concatenation of what
    each piece between semicolons contributes on its own. *)
Theorem output_is_built_token_by_token
    (impl : implementation) (U : Unicode) (now : nat -> Z)
    (file : option delete_cache.json_object) (tags : pystr)
    (rules : list AllowedTagRecord) (delayed_clean : bool) :
  exists o ls,
    apply_tag_rules_of impl U now file tags rules delayed_clean = Ok o
    /\ Forall2
         (fun t l => contribution impl U (allowed_tags_with_synonyms_of U rules) t = Ok l)
         (split (py ";") tags) ls
    /\ final_tags_str o = join (py "; ") (fromkeys (concat ls)).
Proof.
  destruct (process_tags_of_total U impl now file tags rules delayed_clean) as [st Hst].
  destruct (process_tags_contributions U _ _ _ _ _ _ _ Hst) as (ls & Hls & Hres).
  eexists _, ls. split; [by apply apply_tag_rules_Ok|]. split; [done|].
  simpl. by rewrite Hres.
Qed.

(** X9.  When the normal form of every trimmed token is a key of the
    index, the call returns the names found under these keys
    (deduplicated, in order), never enters [find_best_match] and adds
    nothing to the cache. *)
Theorem tokens_with_known_normal_form_resolve_by_lookup
    (impl : implementation) (U : Unicode) (now : nat -> Z)
    (file : option delete_cache.json_object) (tags : pystr)
    (rules : list AllowedTagRecord) (delayed_clean : bool) (names : list pystr) :
  Forall2
    (fun t name =>
       odict.get (normalize_tag U t) (allowed_tags_with_synonyms_of U rules) = Some name)
    (tokens U tags) names ->
  apply_tag_rules_of impl U now file tags rules delayed_clean
  = Ok {| final_tags_str := join (py "; ") (fromkeys names);
          saved_cache :=
            if delayed_clean then reconcile names (cleaned_cache now file)
            else cleaned_cache now file;
          fuzzy_trace := [] |}.
Proof.
  intros HF. unfold apply_tag_rules_of.
  rewrite (apply_tag_rules_Ok U _ now file tags rules delayed_clean
             (add_results names (initial_state now file))).
  - done.
  - by apply process_tags_lookups.
Qed.

(** The theorem on an input of three synonyms. *)
Lemma tokens_with_known_normal_form_resolve_by_lookup_witness :
  apply_tag_rules_of first latin_cyrillic ticking_clock trash_file
    (py "lcd; Service ;auto") demo_rules true
  = Ok {| final_tags_str := join (py "; ") (fromkeys [py "display"; py "svc"; py "AUTO"]);
          saved_cache :=
            reconcile [py "display"; py "svc"; py "AUTO"]
              (cleaned_cache ticking_clock trash_file);
          fuzzy_trace := [] |}.
Proof.
  apply (tokens_with_known_normal_form_resolve_by_lookup first latin_cyrillic
           ticking_clock trash_file (py "lcd; Service ;auto") demo_rules true).
  replace (tokens latin_cyrillic (py "lcd; Service ;auto"))
    with [py "lcd"; py "Service"; py "auto"] by (vm_compute; reflexivity).
  repeat (constructor; [vm_compute; reflexivity|]). constructor.
Defined.

(** X10.  Later rules overwrite earlier collisions: the index gives, for a
    key, the name written by the last of the assignments that
    [apply_tag_rules] makes for it (allowed names first, then the synonyms,
    rule by rule). *)
Theorem synonym_index_last_write_wins
    (U : Unicode) (rules : list AllowedTagRecord)
    (before after : list (pystr * pystr)) (k name : pystr) :
  index_writes U rules = before ++ (k, name) :: after ->
  k ∉ after.*1 ->
  odict.get k (allowed_tags_with_synonyms_of U rules) = Some name.
Proof.
  intros Hw Hk. rewrite index_as_writes, Hw, fold_left_app. simpl.
  rewrite fold_writes_untouched by done. apply get_set_eq.
Qed.

(** The theorem on the colliding table: the synonym [SMS] is the last to
    write the key [sms]. *)
Lemma synonym_index_last_write_wins_witness :
  odict.get (py "sms") (allowed_tags_with_synonyms_of latin_cyrillic colliding_rules)
  = Some (py "text").
Proof.
  apply (synonym_index_last_write_wins latin_cyrillic colliding_rules
           [(py "sms", py "sms"); (py "text", py "text")] []).
  - vm_compute. reflexivity.
  - apply not_elem_of_nil.
Defined.

(** X11.  The keys of the index, in the order in which [find_best_match]
    of the first module goes through them, are the normalized allowed
    names followed by the normalized synonyms, each at the place of its
    first assignment; a string is a key exactly when it is one of them. *)
Theorem synonym_index_keys_in_first_assignment_order
    (U : Unicode) (rules : list AllowedTagRecord) :
  odict.keys (allowed_tags_with_synonyms_of U rules) = fromkeys (index_writes U rules).*1
  /\ forall k, odict.get k (allowed_tags_with_synonyms_of U rules) = None
               <-> k ∉ (index_writes U rules).*1.
Proof.
  assert (odict.keys (allowed_tags_with_synonyms_of U rules)
          = fromkeys (index_writes U rules).*1) as Hkeys.
  { rewrite index_as_writes. unfold fromkeys. by apply keys_fold_writes. }
  split; [done|]. intros k. by rewrite get_None_keys, Hkeys, elem_of_fromkeys.
Qed.

(** X12.  [normalize_tag] does not tell space, hyphen and underscore
    apart: two tokens that differ in these separators only have the same
    normal form. *)
Theorem normalize_tag_identifies_separators (U : Unicode) (t1 t2 : pystr) :
  same_up_to_separators t1 t2 ->
  normalize_tag U t1 = normalize_tag U t2.
Proof.
  intros HF. unfold normalize_tag. f_equal.
  induction HF as [|c d t1 t2 Hcd _ IH]; simpl; [done|]. rewrite IH. f_equal.
  destruct Hcd as [->|[Hc Hd]]; [done|].
  unfold is_separator, SPACE, HYPHEN, UNDERSCORE in *.
  destruct (c =? 32)%N eqn:Hc1, (d =? 32)%N eqn:Hd1; simpl in *;
    destruct (c =? 45)%N eqn:Hc2, (d =? 45)%N eqn:Hd2; simpl in *;
    repeat match goal with
           | H : (_ =? _)%N = true |- _ => apply N.eqb_eq in H; subst
           end; simpl; try done.
Qed.

(** The theorem on three spellings of one tag. *)
Lemma normalize_tag_identifies_separators_witness :
  normalize_tag latin_cyrillic (py "lock screen-x")
  = normalize_tag latin_cyrillic (py "lock-screen_x").
Proof.
  apply normalize_tag_identifies_separators.
  unfold same_up_to_separators. vm_compute.
  repeat (constructor;
          [first [left; reflexivity | right; split; reflexivity]|]).
  constructor.
Defined.

(** X13.  The scan of [split_composite_tag] cuts the token without losing
    or reordering a character: the parts, put end to end, give the token
    back; no part is empty; a capital occurs at the head of a part only,
    and every part but the first starts with one. *)
Theorem composite_parts_partition (U : Unicode) (tag : pystr) :
  concat (composite_parts U tag) = tag
  /\ Forall (fun p => p <> [] /\ Forall (fun c => isupper U c = false) (tail p))
            (composite_parts U tag)
  /\ Forall (fun p => exists c p', p = c :: p' /\ isupper U c = true)
            (tail (composite_parts U tag)).
Proof.
  unfold composite_parts.
  destruct (fold_left (split_step U) tag ([], [])) as [parts cur] eqn:Hfold.
  destruct (composite_scan U tag [] [] [] parts cur Hfold)
    as (Hcat & Hgood & Hcur & Hcap & Hhead); try done.
  simpl in Hcat. destruct cur as [|c cur]; simpl.
  - rewrite app_nil_r in Hcat. done.
  - split; [by rewrite concat_app; simpl; rewrite app_nil_r|].
    split; [apply Forall_app; split; [done|]; by apply Forall_singleton|].
    destruct parts as [|p parts]; simpl; [done|].
    apply Forall_app. split; [done|]. apply Forall_singleton. by apply Hhead.
Qed.

(** X14.  A token with no capital after its first character is not cut:
    when its normal form is not a key of the index, [split_composite_tag]
    returns the empty list, and the token goes on to the fuzzy match. *)
Theorem token_without_inner_capital_is_not_split
    (U : Unicode) (tag : pystr) (index : odict.t pystr) :
  Forall (fun c => isupper U c = false) (tail tag) ->
  odict.get (normalize_tag U tag) index = None ->
  split_composite_tag U tag index = []
  /\ reaches_fuzzy U index tag = true.
Proof.
  intros Hlow Hg.
  assert (split_composite_tag U tag index = []) as Hs.
  { unfold split_composite_tag, composite_parts.
    destruct tag as [|c tag]; [done|]. simpl. rewrite andb_false_r. simpl in Hlow.
    assert (forall cur, cur <> [] ->
              fold_left (split_step U) tag ([], cur) = ([], cur ++ tag)) as ->.
    { clear Hg. induction Hlow as [|d tag Hd _ IH]; intros cur Hcur; simpl.
      - by rewrite app_nil_r.
      - rewrite Hd. simpl. rewrite IH by (destruct cur; simpl; congruence).
        by rewrite <- app_assoc. }
    - simpl. by rewrite Hg.
    - done. }
  split; [done|]. unfold reaches_fuzzy. by rewrite Hg, Hs.
Qed.

(** The theorem on [displaysvc] and the index of the repository. *)
Lemma token_without_inner_capital_is_not_split_witness :
  split_composite_tag latin_cyrillic (py "displaysvc") demo_index = []
  /\ reaches_fuzzy latin_cyrillic demo_index (py "displaysvc") = true.
Proof.
  apply token_without_inner_capital_is_not_split.
  - apply (bool_decide_unpack _). vm_compute. exact I.
  - vm_compute. reflexivity.
Defined.

(** ** The Tanimoto scorer as a count on multisets *)

Section tanimoto_facts.
Import first_implementation.

Lemma unused_chars_fresh second :
  unused_chars second (replicate (length second) false) = second.
Proof. induction second as [|d second IH]; simpl; [done|]. by rewrite IH. Qed.

Lemma pair_off_Some c second used used' :
  pair_off c second used = Some used' ->
  unused_chars second used ≡ₚ c :: unused_chars second used'.
Proof.
  revert used used'. induction second as [|d second IH]; intros [|u used] used' H;
    simpl in H; try done.
  destruct (negb u && (c =? d)%N) eqn:Hc.
  - apply andb_true_iff in Hc as [Hu Hcd]. apply N.eqb_eq in Hcd as ->.
    destruct u; [done|]. simplify_eq. done.
  - destruct (pair_off c second used) as [used''|] eqn:Hp; simpl in H; [|done].
    simplify_eq. apply IH in Hp. simpl. destruct u; [done|].
    rewrite Hp. apply Permutation_swap.
Qed.

Lemma pair_off_None c second used :
  pair_off c second used = None -> c ∉ unused_chars second used.
Proof.
  revert used. induction second as [|d second IH]; intros [|u used] H; simpl in *;
    try apply not_elem_of_nil.
  destruct (negb u && (c =? d)%N) eqn:Hc; [done|].
  destruct (pair_off c second used) as [used''|] eqn:Hp; simpl in H; [done|].
  specialize (IH _ Hp). destruct u; [done|].
  apply not_elem_of_cons. split; [|done].
  simpl in Hc. intros ->. by rewrite N.eqb_refl in Hc.
Qed.

(** Every pairing takes one character out of the unused ones. *)
Lemma count_equal_fold_unused second (first_token : pystr) (st : nat * list bool) :
  let r := fold_left
             (fun st c =>
                match pair_off c second st.2 with
                | Some used => (S st.1, used)
                | None => st
                end) first_token st in
  r.1 + length (unused_chars second r.2) = st.1 + length (unused_chars second st.2).
Proof.
  revert st. induction first_token as [|c l IH]; intros st; simpl; [done|].
  rewrite IH. destruct (pair_off c second st.2) as [used|] eqn:Hp; [|done].
  apply pair_off_Some in Hp. simpl. rewrite Hp. simpl. lia.
Qed.

(** A token whose characters are all among the unused ones is paired off
    entirely. *)
Lemma count_equal_fold_included second (first_token : pystr) (st : nat * list bool) :
  first_token ⊆+ unused_chars second st.2 ->
  (fold_left
     (fun st c =>
        match pair_off c second st.2 with
        | Some used => (S st.1, used)
        | None => st
        end) first_token st).1 = st.1 + length first_token.
Proof.
  revert st. induction first_token as [|c l IH]; intros st Hsub; simpl; [lia|].
  destruct (pair_off c second st.2) as [used|] eqn:Hp.
  - rewrite IH; simpl; [lia|].
    apply pair_off_Some in Hp. rewrite Hp in Hsub.
    by apply (submseteq_app_inv_l _ _ [c]).
  - apply pair_off_None in Hp. exfalso. apply Hp.
    apply (elem_of_submseteq (c :: l)); [apply list_elem_of_here|done].
Qed.

Lemma count_equal_le_r a b : (count_equal a b).1 <= length b.
Proof.
  unfold count_equal.
  pose proof (count_equal_fold_unused b a (0, replicate (length b) false)) as H.
  simpl in H. rewrite unused_chars_fresh in H. lia.
Qed.
End tanimoto_facts.

(** The score of a token whose characters all occur in the other string. *)
Lemma is_tokens_fuzzy_equal_included (first_token second_token : pystr) :
  first_token ⊆+ second_token ->
  second_token <> [] ->
  first_implementation.is_tokens_fuzzy_equal first_token second_token
  = Ok (Z.of_nat (length first_token) # Pos.of_nat (length second_token))%Q.
Proof.
  intros Hsub Hne.
  unfold first_implementation.is_tokens_fuzzy_equal, first_implementation.truediv.
  assert ((first_implementation.count_equal first_token second_token).1
          = length first_token) as ->.
  { unfold first_implementation.count_equal.
    rewrite count_equal_fold_included; [done|]. simpl. by rewrite unused_chars_fresh. }
  replace (Z.of_nat (length first_token) + Z.of_nat (length second_token)
           - Z.of_nat (length first_token))%Z
    with (Z.of_nat (length second_token)) by lia.
  assert (length second_token <> 0) as Hlen by (by destruct second_token).
  destruct (_ =? 0)%Z eqn:Hz; [apply Z.eqb_eq in Hz; lia|].
  do 2 f_equal. destruct (length second_token) as [|n]; [done|].
  change (Z.to_pos (Z.of_nat (S n))) with (Pos.of_succ_nat n).
  apply Pos.of_nat_succ.
Qed.

(** X15.  Whenever [is_tokens_fuzzy_equal] returns, its score lies between
    0 and 1: no more characters are paired off than either string has. *)
Theorem tanimoto_score_is_between_0_and_1 (first_token second_token : pystr) (q : Q) :
  first_implementation.is_tokens_fuzzy_equal first_token second_token = Ok q ->
  (0 <= q <= 1)%Q.
Proof.
  unfold first_implementation.is_tokens_fuzzy_equal, first_implementation.truediv.
  pose proof (count_equal_le first_token second_token) as Ha.
  pose proof (count_equal_le_r first_token second_token) as Hb.
  destruct (_ =? 0)%Z eqn:Hz; [done|]. intros [= <-].
  apply Z.eqb_neq in Hz. unfold Qle. simpl.
  rewrite Z2Pos.id by lia. lia.
Qed.

(** The theorem on a pair of strings of the repository. *)
Lemma tanimoto_score_is_between_0_and_1_witness :
  (0 <= 9 # 10 <= 1)%Q.
Proof.
  apply (tanimoto_score_is_between_0_and_1 (py "webengine") (py "web_engine")).
  vm_compute. reflexivity.
Defined.

(** X16.  The scorer pays no attention to the order of the characters:
    when every character of the first string occurs in the second, as many
    times at least, the score is the quotient of the two lengths; an
    anagram scores 1. *)
Theorem tanimoto_score_of_a_submultiset (first_token second_token : pystr) :
  first_token ⊆+ second_token ->
  second_token <> [] ->
  first_implementation.is_tokens_fuzzy_equal first_token second_token
  = Ok (Z.of_nat (length first_token) # Pos.of_nat (length second_token))%Q.
Proof. apply is_tokens_fuzzy_equal_included. Qed.

(** The theorem on the beginning of a key. *)
Lemma tanimoto_score_of_a_submultiset_witness :
  first_implementation.is_tokens_fuzzy_equal (py "displ") (py "display") = Ok (5 # 7)%Q.
Proof.
  apply (tanimoto_score_of_a_submultiset (py "displ") (py "display")).
  - apply (submseteq_inserts_r (py "ay") (py "displ") (py "displ")). done.
  - discriminate.
Defined.

(** X17.  [find_best_match] of the first module accepts every token whose
    normalized characters all occur in some key, in any order, as soon as
    the token is longer than 60% of that key: it returns a name of the
    index.  Every anagram of a key is accepted. *)
Theorem scrambled_key_is_a_fuzzy_match
    (U : Unicode) (tag : pystr) (index : odict.t pystr) (k : pystr) :
  k ∈ odict.keys index ->
  normalize_tag U tag ⊆+ k ->
  3 * length k < 5 * length (normalize_tag U tag) ->
  exists name,
    first_implementation.find_best_match U tag index = Ok (Some name)
    /\ name ∈ odict.values index.
Proof.
  intros Hk Hsub Hlen.
  pose proof (submseteq_length _ _ Hsub) as Hle.
  assert (k <> []) as Hkne by (intros ->; simpl in *; lia).
  assert (normalize_tag U tag <> []) as Hnt.
  { intros Heq. rewrite Heq in Hlen. simpl in Hlen. lia. }
  pose proof (is_tokens_fuzzy_equal_included _ _ Hsub Hkne) as Hscore.
  unfold first_implementation.find_best_match.
  destruct (best_loop_total (normalize_tag U tag) (odict.keys index) None
              first_implementation.threshold) as [[bm bs] Hloop]; [by left|].
  rewrite Hloop. simpl.
  apply best_loop_spec in Hloop
    as [(-> & -> & Hall)|(l1 & k' & l2 & Hkeys & -> & Hk' & Hlt & _)].
  - exfalso. specialize (Hall _ _ Hk Hscore).
    unfold Qle, first_implementation.threshold in Hall. simpl in Hall.
    assert (Z.pos (Pos.of_nat (length k)) = Z.of_nat (length k)) as Hpos.
    { destruct (length k) as [|n] eqn:Hn; [by destruct k|].
      by rewrite <- Pos.of_nat_succ. }
    lia.
  - assert (k' <> []) as Hne'.
    { intros ->. apply is_tokens_fuzzy_equal_nil_r in Hk'. rewrite Hk' in Hlt.
      apply (Qlt_irrefl 0). eapply Qlt_trans; [apply threshold_pos|done]. }
    destruct k' as [|c k']; [done|]. simpl.
    destruct (odict.get (c :: k') index) as [name|] eqn:Hg.
    + exists name. split; [done|]. by apply get_Some_values in Hg.
    + apply get_None_keys in Hg. exfalso. apply Hg. rewrite Hkeys.
      apply elem_of_app. right. apply list_elem_of_here.
Qed.

(** The theorem on an anagram of the key [display]. *)
Lemma scrambled_key_is_a_fuzzy_match_witness :
  exists name,
    first_implementation.find_best_match latin_cyrillic (py "Yalpsid") demo_index
    = Ok (Some name)
    /\ name ∈ odict.values demo_index.
Proof.
  apply (scrambled_key_is_a_fuzzy_match latin_cyrillic (py "Yalpsid") demo_index
           (py "display")).
  - apply (bool_decide_unpack _). vm_compute. exact I.
  - apply Permutation_submseteq.
    replace (normalize_tag latin_cyrillic (py "Yalpsid")) with (reverse (py "display"))
      by (vm_compute; reflexivity).
    apply reverse_Permutation.
  - vm_compute. lia.
Defined.

(** ** Splitting, trimming and joining *)

Section token_facts.
Variable U : Unicode.

Lemma py_semicolon : py ";" = [SEMICOLON].
Proof. reflexivity. Qed.

Lemma py_separator : py "; " = [SEMICOLON; SPACE].
Proof. reflexivity. Qed.

Lemma elem_of_rev_list (x : code) (l : pystr) : x ∈ rev l <-> x ∈ l.
Proof. rewrite !list_elem_of_In. symmetry. apply in_rev. Qed.

Lemma split_go_pieces (c : code) (s cur : pystr) piece :
  c ∉ cur ->
  piece ∈ split_go [c] s 0 cur ->
  c ∉ piece.
Proof.
  revert cur. induction s as [|d s IH]; intros cur Hcur; simpl.
  - intros ->%list_elem_of_singleton. by rewrite elem_of_rev_list.
  - destruct (c =? d)%N eqn:Hcd; simpl.
    + intros [->|Hin]%elem_of_cons; [by rewrite elem_of_rev_list|].
      apply (IH []); [apply not_elem_of_nil|done].
    + apply IH. apply not_elem_of_cons. split; [|done].
      intros ->. by rewrite N.eqb_refl in Hcd.
Qed.

Lemma split_go_app (c : code) (x r cur : pystr) :
  c ∉ x ->
  split_go [c] (x ++ r) 0 cur = split_go [c] r 0 (rev x ++ cur).
Proof.
  revert cur. induction x as [|d x IH]; intros cur Hx; simpl; [done|].
  rewrite not_elem_of_cons in Hx. destruct Hx as [Hne Hx].
  destruct (c =? d)%N eqn:Hcd; [by apply N.eqb_eq in Hcd|]. simpl.
  rewrite IH by done. by rewrite <- app_assoc.
Qed.

Lemma split_go_join (n : pystr) (ns : list pystr) (cur : pystr) :
  Forall (fun n => SEMICOLON ∉ n) (n :: ns) ->
  split_go [SEMICOLON] (join [SEMICOLON; SPACE] (n :: ns)) 0 cur
  = (rev cur ++ n) :: (cons SPACE <$> ns).
Proof.
  revert n cur. induction ns as [|n2 ns IH]; intros n cur Hall.
  - simpl. apply Forall_cons in Hall as [Hn _].
    rewrite <- (app_nil_r n) at 1. rewrite split_go_app by done. simpl.
    by rewrite rev_app_distr, rev_involutive.
  - apply Forall_cons in Hall as [Hn Hall].
    change (join [SEMICOLON; SPACE] (n :: n2 :: ns))
      with (n ++ SEMICOLON :: SPACE :: join [SEMICOLON; SPACE] (n2 :: ns)).
    rewrite split_go_app by done.
    change (split_go [SEMICOLON] (SEMICOLON :: SPACE :: join [SEMICOLON; SPACE] (n2 :: ns))
              0 (rev n ++ cur))
      with (rev (rev n ++ cur)
            :: split_go [SEMICOLON] (join [SEMICOLON; SPACE] (n2 :: ns)) 0 [SPACE]).
    rewrite (IH n2 [SPACE] Hall). rewrite rev_app_distr, rev_involutive. done.
Qed.

Lemma lstrip_idem sp s : lstrip sp (lstrip sp s) = lstrip sp s.
Proof.
  induction s as [|c s IH]; simpl; [done|].
  destruct (sp c) eqn:Hc; [done|]. simpl. by rewrite Hc.
Qed.

Lemma lstrip_fixed_prefix sp (x y : pystr) :
  x <> [] -> lstrip sp (x ++ y) = x ++ y -> lstrip sp x = x.
Proof.
  destruct x as [|c x]; [done|]. intros _. simpl.
  destruct (sp c) eqn:Hc; [|done]. intros Heq.
  assert (length (lstrip sp (x ++ y)) <= length (x ++ y)) as Hlen.
  { clear. induction (x ++ y) as [|d l IH]; simpl; [done|].
    destruct (sp d); simpl; lia. }
  rewrite Heq in Hlen. simpl in Hlen. lia.
Qed.

Lemma lstrip_suffix sp s : exists w, s = w ++ lstrip sp s.
Proof.
  induction s as [|c s [w IH]]; simpl; [by exists []|].
  destruct (sp c); [|by exists []]. exists (c :: w). simpl. by f_equal.
Qed.

Lemma strip_idem s : strip (isspace U) (strip (isspace U) s) = strip (isspace U) s.
Proof.
  unfold strip. set (sp := isspace U). set (t := lstrip sp s). set (u := lstrip sp (rev t)).
  assert (lstrip sp (rev u) = rev u) as ->.
  { destruct (decide (u = [])) as [->|Hu]; [done|].
    destruct (lstrip_suffix sp (rev t)) as [w Hw]. fold u in Hw.
    apply (f_equal (@rev code)) in Hw. rewrite rev_involutive, rev_app_distr in Hw.
    apply (lstrip_fixed_prefix sp (rev u) (rev w)).
    - intros Hnil. apply Hu. apply (f_equal (@rev code)) in Hnil.
      by rewrite rev_involutive in Hnil.
    - rewrite <- Hw. apply lstrip_idem. }
  rewrite rev_involutive. unfold u. by rewrite lstrip_idem.
Qed.

Lemma tokens_of_joined_names (names : list pystr) :
  isspace U SPACE = true ->
  names <> [] ->
  Forall (plain_name U) names ->
  tokens U (join (py "; ") names) = names.
Proof.
  intros Hsp Hne Hall. destruct names as [|n ns]; [done|].
  unfold tokens, split. rewrite py_semicolon, py_separator.
  rewrite split_go_join by (eapply Forall_impl; [exact Hall|by intros ? []]).
  change (rev [] ++ n) with n. rewrite fmap_cons.
  apply Forall_cons in Hall as [[_ Hn] Hall]. rewrite Hn. f_equal. clear Hne.
  induction Hall as [|m ms [_ Hm] _ IH]; [done|].
  rewrite !fmap_cons, IH. f_equal. unfold strip in *. simpl. by rewrite Hsp.
Qed.

Lemma fromkeys_NoDup l : NoDup l -> fromkeys l = l.
Proof.
  induction 1 as [|x l Hx Hl IH]; [done|].
  unfold fromkeys at 1. simpl. rewrite (fromkeys_fold l [(x, ())]). simpl. f_equal.
  rewrite IH. apply filter_all. intros y Hy. rewrite not_elem_of_cons.
  split; [by intros ->|apply not_elem_of_nil].
Qed.

Lemma process_tags_view_flag fbm now1 now2 index dc1 dc2 tags st1 st2 :
  same_view st1 st2 ->
  same_view_result (process_tags U fbm now1 index dc1 st1 tags)
                   (process_tags U fbm now2 index dc2 st2 tags).
Proof.
  revert st1 st2. induction tags as [|tag rest IH]; intros st1 st2 Hv; [done|]. simpl.
  assert (same_view_result (process_tag U fbm now1 index dc1 st1 tag)
                           (process_tag U fbm now2 index dc2 st2 tag)) as H1.
  { destruct Hv as [Hr Hf]. unfold process_tag.
    destruct (odict.get _ index); [by split; simpl; rewrite ?Hr|].
    destruct (split_composite_tag _ _ _); [|by split; simpl; rewrite ?Hr].
    destruct (fbm _ index) as [r|e]; simpl; [|done].
    destruct (truthy_opt r); [by split; simpl; rewrite ?Hr, ?Hf|].
    destruct dc1, dc2; by split; simpl; rewrite ?Hr, ?Hf. }
  destruct (process_tag U fbm now1 index dc1 st1 tag) as [a|e1],
           (process_tag U fbm now2 index dc2 st2 tag) as [b|e2]; simpl in *; try done.
  by apply IH.
Qed.

Lemma process_tags_results_of impl now file tags rules dc st :
  process_tags U (find_best_match_of impl U) now (allowed_tags_with_synonyms_of U rules) dc
    (initial_state now file) (split (py ";") tags) = Ok st ->
  Forall (fun name => name ∈ allowed_name <$> rules) (result_tags st).
Proof.
  intros Hst. apply Forall_forall. intros name Hn.
  destruct (process_tags_results _ _ _ _ _ _ _ _
              (find_best_match_of_sound U impl _) Hst _ Hn) as [Hnil|Hval].
  - by apply elem_of_nil in Hnil.
  - by apply index_values_allowed in Hval.
Qed.
End token_facts.

(** X18.  The pieces the loop works on hold no semicolon and are trimmed:
    [strip] leaves a token of the input as it is.  So do, therefore, the
    keys the loop writes to the cache. *)
Theorem tokens_are_trimmed_and_free_of_semicolons (U : Unicode) (tags t : pystr) :
  t ∈ tokens U tags ->
  plain_name U t.
Proof.
  unfold tokens. intros (piece & -> & Hin)%list_elem_of_fmap. split.
  - rewrite py_semicolon in Hin. unfold split in Hin.
    apply split_go_pieces in Hin; [|apply not_elem_of_nil].
    intros Hs. apply Hin. unfold strip in Hs. rewrite elem_of_rev_list in Hs.
    destruct (lstrip_suffix (isspace U) (rev (lstrip (isspace U) piece))) as [w Hw].
    destruct (lstrip_suffix (isspace U) piece) as [w' Hw'].
    rewrite Hw'. apply elem_of_app. right. rewrite <- elem_of_rev_list, Hw.
    apply elem_of_app. by right.
  - apply strip_idem.
Qed.

(** The theorem on the second token of an input of the repository. *)
Lemma tokens_are_trimmed_and_free_of_semicolons_witness :
  plain_name latin_cyrillic (py "lcd").
Proof.
  apply (tokens_are_trimmed_and_free_of_semicolons latin_cyrillic (py "unknown-tag; lcd")).
  apply (bool_decide_unpack _). vm_compute. exact I.
Defined.

(** X19.  The [delayed_clean] flag changes what is written to the cache,
    never what is returned: with and without it, on any two cache files and
    clocks, the call returns the same string. *)
Theorem delayed_clean_does_not_change_the_output
    (impl : implementation) (U : Unicode) (now1 now2 : nat -> Z)
    (file1 file2 : option delete_cache.json_object) (tags : pystr)
    (rules : list AllowedTagRecord) :
  exists s,
    final_tags_str <$> apply_tag_rules_of impl U now1 file1 tags rules true = Ok s
    /\ final_tags_str <$> apply_tag_rules_of impl U now2 file2 tags rules false = Ok s.
Proof.
  destruct (process_tags_of_total U impl now1 file1 tags rules true) as [st1 H1].
  destruct (process_tags_of_total U impl now2 file2 tags rules false) as [st2 H2].
  pose proof (process_tags_view_flag U (find_best_match_of impl U) now1 now2
                (allowed_tags_with_synonyms_of U rules) true false
                (split (py ";") tags) (initial_state now1 file1) (initial_state now2 file2))
    as Hview.
  rewrite H1, H2 in Hview. destruct Hview as [Hres _]; [done|].
  exists (join (py "; ") (fromkeys (result_tags st1))).
  unfold apply_tag_rules_of.
  rewrite (apply_tag_rules_Ok _ _ _ _ _ _ _ _ H1), (apply_tag_rules_Ok _ _ _ _ _ _ _ _ H2).
  simpl. by rewrite Hres.
Qed.

(** X20.  Resolving is idempotent on a well-kept rule table: when the
    table has no collisions, its allowed names hold no semicolon and no
    surrounding whitespace, and the index has no empty key, feeding the
    returned string back into [apply_tag_rules] returns it unchanged. *)
Theorem resolving_the_output_again_returns_it
    (impl : implementation) (U : Unicode) (now1 now2 : nat -> Z)
    (file1 file2 : option delete_cache.json_object) (tags : pystr)
    (rules : list AllowedTagRecord) (dc1 dc2 : bool) :
  collision_free U rules = true ->
  isspace U SPACE = true ->
  Forall (fun record => plain_name U (allowed_name record)) rules ->
  odict.get [] (allowed_tags_with_synonyms_of U rules) = None ->
  exists out,
    final_tags_str <$> apply_tag_rules_of impl U now1 file1 tags rules dc1 = Ok out
    /\ final_tags_str <$> apply_tag_rules_of impl U now2 file2 out rules dc2 = Ok out.
Proof.
  intros Hfree Hsp Hplain Hempty.
  destruct (process_tags_of_total U impl now1 file1 tags rules dc1) as [st1 H1].
  set (names := fromkeys (result_tags st1)).
  exists (join (py "; ") names). unfold apply_tag_rules_of.
  rewrite (apply_tag_rules_Ok _ _ _ _ _ _ _ _ H1). split; [done|].
  assert (Forall (fun name => name ∈ allowed_name <$> rules) names) as Hallowed.
  { apply Forall_forall. intros name Hn. unfold names in Hn.
    rewrite elem_of_fromkeys in Hn.
    pose proof (process_tags_results_of U _ _ _ _ _ _ _ H1) as HF.
    rewrite Forall_forall in HF. by apply HF. }
  destruct (decide (names = [])) as [Hnil|Hne].
  - rewrite Hnil. simpl. unfold apply_tag_rules.
    change (split (py ";") []) with [@nil code]. simpl.
    unfold process_tag. change (strip (isspace U) []) with (@nil code).
    assert (normalize_tag U [] = []) as Hn by apply lower_nil.
    rewrite Hn, Hempty.
    change (split_composite_tag U [] (allowed_tags_with_synonyms_of U rules))
      with (@nil pystr).
    rewrite (find_best_match_of_empty U impl [] _ Hn Hempty). simpl.
    by destruct dc2.
  - assert (tokens U (join (py "; ") names) = names) as Htok.
    { apply tokens_of_joined_names; [done..|].
      apply Forall_forall. intros name Hn. rewrite Forall_forall in Hallowed.
      apply Hallowed, list_elem_of_fmap in Hn as (r & -> & Hr).
      rewrite Forall_forall in Hplain. by apply Hplain. }
    rewrite (apply_tag_rules_Ok U _ now2 file2 _ rules dc2
               (add_results names (initial_state now2 file2))).
    + simpl. by rewrite (fromkeys_NoDup names) by apply NoDup_fromkeys.
    + fold (tokens U (join (py "; ") names)) in Htok.
      rewrite <- Htok at 2. apply process_tags_exact.
      intros t Ht. fold (tokens U (join (py "; ") names)) in Ht. rewrite Htok in Ht.
      rewrite Forall_forall in Hallowed.
      apply Hallowed, list_elem_of_fmap in Ht as (r & -> & Hr).
      by apply collision_free_get.
Qed.

(** The theorem on the rule table of the repository. *)
Lemma resolving_the_output_again_returns_it_witness :
  exists out,
    final_tags_str <$>
      apply_tag_rules_of first latin_cyrillic ticking_clock None
        (py "WebEngine; lcd; DisplaySvc") demo_rules true = Ok out
    /\ final_tags_str <$>
         apply_tag_rules_of first latin_cyrillic late_clock trash_file
           out demo_rules false = Ok out.
Proof.
  apply (resolving_the_output_again_returns_it first latin_cyrillic).
  - reflexivity.
  - reflexivity.
  - apply (bool_decide_unpack _). vm_compute. exact I.
  - reflexivity.
Defined.

(** ** The scorer does not depend on the order of its arguments *)

Section symmetry_facts.
Import first_implementation.

(** The characters paired off so far ([M]) and the characters of the first
    token left without a partner ([R]) split both strings. *)
Lemma count_equal_fold_split second (first_token : pystr) (st : nat * list bool)
    (seen M R : pystr) :
  second ≡ₚ M ++ unused_chars second st.2 ->
  length M = st.1 ->
  Forall (fun x => x ∉ unused_chars second st.2) R ->
  seen ≡ₚ M ++ R ->
  let r := fold_left
             (fun st c =>
                match pair_off c second st.2 with
                | Some used => (S st.1, used)
                | None => st
                end) first_token st in
  exists M' R',
    second ≡ₚ M' ++ unused_chars second r.2
    /\ length M' = r.1
    /\ Forall (fun x => x ∉ unused_chars second r.2) R'
    /\ seen ++ first_token ≡ₚ M' ++ R'.
Proof.
  revert st seen M R. induction first_token as [|c l IH];
    intros st seen M R Hsec Hlen Hrest Hseen; simpl.
  - exists M, R. by rewrite app_nil_r.
  - destruct (pair_off c second st.2) as [used|] eqn:Hp.
    + apply pair_off_Some in Hp.
      destruct (IH (S st.1, used) (seen ++ [c]) (c :: M) R) as (M' & R' & H1 & H2 & H3 & H4).
      * simpl. etrans; [exact Hsec|]. rewrite Hp. symmetry. apply Permutation_middle.
      * simpl. by rewrite Hlen.
      * simpl. eapply Forall_impl; [exact Hrest|]. intros x Hx Hin. apply Hx.
        rewrite Hp. by apply list_elem_of_further.
      * rewrite Hseen. simpl. symmetry. apply Permutation_cons_append.
      * exists M', R'. do 3 (split; [done|]). by rewrite <- H4, <- app_assoc.
    + apply pair_off_None in Hp.
      destruct (IH st (seen ++ [c]) M (c :: R)) as (M' & R' & H1 & H2 & H3 & H4);
        try done.
      * by apply Forall_cons.
      * rewrite Hseen, <- app_assoc. f_equiv. symmetry. apply Permutation_cons_append.
      * exists M', R'. do 3 (split; [done|]). by rewrite <- H4, <- app_assoc.
Qed.

Lemma count_equal_split a b :
  exists M R T,
    a ≡ₚ M ++ R /\ b ≡ₚ M ++ T
    /\ (forall x, x ∈ R -> x ∉ T)
    /\ length M = (count_equal a b).1.
Proof.
  unfold count_equal.
  destruct (count_equal_fold_split b a (0, replicate (length b) false) [] [] [])
    as (M & R & H1 & H2 & H3 & H4); simpl; try done.
  { by rewrite unused_chars_fresh. }
  exists M, R, (unused_chars b
                  (fold_left
                     (fun st c =>
                        match pair_off c b st.2 with
                        | Some used => (S st.1, used)
                        | None => st
                        end) a (0, replicate (length b) false)).2).
  split; [done|]. split; [done|]. split; [|done].
  intros x Hx. rewrite Forall_forall in H3. by apply H3.
Qed.

(** Two such splittings of the same strings pair off as many characters. *)
Lemma split_size_unique (a b M R T M' R' T' : pystr) :
  a ≡ₚ M ++ R -> b ≡ₚ M ++ T -> (forall x, x ∈ R -> x ∉ T) ->
  a ≡ₚ M' ++ R' -> b ≡ₚ M' ++ T' -> (forall x, x ∈ R' -> x ∉ T') ->
  length M = length M'.
Proof.
  intros Ha Hb Hd Ha' Hb' Hd'. apply Permutation_length.
  apply (Permutation_count_occ N.eq_dec). intros x.
  assert (forall (P Q : pystr), (forall x, x ∈ P -> x ∉ Q) ->
            count_occ N.eq_dec P x = 0 \/ count_occ N.eq_dec Q x = 0) as Hzero.
  { intros P Q HPQ. destruct (decide (x ∈ P)) as [Hin|Hout].
    - right. apply count_occ_not_In. rewrite <- list_elem_of_In. by apply HPQ.
    - left. apply count_occ_not_In. by rewrite <- list_elem_of_In. }
  pose proof (proj1 (Permutation_count_occ N.eq_dec _ _) Ha x) as Ca.
  pose proof (proj1 (Permutation_count_occ N.eq_dec _ _) Hb x) as Cb.
  pose proof (proj1 (Permutation_count_occ N.eq_dec _ _) Ha' x) as Ca'.
  pose proof (proj1 (Permutation_count_occ N.eq_dec _ _) Hb' x) as Cb'.
  rewrite count_occ_app in Ca, Cb, Ca', Cb'.
  destruct (Hzero R T Hd) as [Z1|Z1], (Hzero R' T' Hd') as [Z2|Z2];
    unfold pystr, code in *; lia.
Qed.
End symmetry_facts.

(** X21.  The Tanimoto scorer is symmetric: exchanging the two strings
    gives the same score, and the same exception on two empty strings. *)
Theorem tanimoto_score_is_symmetric (first_token second_token : pystr) :
  first_implementation.is_tokens_fuzzy_equal first_token second_token
  = first_implementation.is_tokens_fuzzy_equal second_token first_token.
Proof.
  assert ((first_implementation.count_equal first_token second_token).1
          = (first_implementation.count_equal second_token first_token).1) as Hc.
  { destruct (count_equal_split first_token second_token)
      as (M & R & T & Ha & Hb & Hd & <-).
    destruct (count_equal_split second_token first_token)
      as (M' & R' & T' & Hb' & Ha' & Hd' & <-).
    apply (split_size_unique first_token second_token M R T M' T' R'); try done.
    intros x Hx Hin. by apply (Hd' x). }
  unfold first_implementation.is_tokens_fuzzy_equal. rewrite Hc.
  by rewrite (Z.add_comm (Z.of_nat (length first_token))).
Qed.

(** X22.  A call never drops a fresh entry of the cache, except in the
    reconciliation: an entry that survives the cleaning is still in the
    saved cache (with its old or a new timestamp) unless [delayed_clean]
    is set and its key is, verbatim, one of the resolved names. *)
Theorem fresh_entries_stay_unless_reconciled
    (impl : implementation) (U : Unicode) (now : nat -> Z)
    (file : option delete_cache.json_object) (tags : pystr)
    (rules : list AllowedTagRecord) (delayed_clean : bool) :
  exists st o,
    process_tags U (find_best_match_of impl U) now
      (allowed_tags_with_synonyms_of U rules) delayed_clean
      (initial_state now file) (split (py ";") tags) = Ok st
    /\ apply_tag_rules_of impl U now file tags rules delayed_clean = Ok o
    /\ final_tags_str o = join (py "; ") (fromkeys (result_tags st))
    /\ forall k,
         is_Some (odict.get k (cleaned_cache now file)) ->
         (delayed_clean = true -> k ∉ fromkeys (result_tags st)) ->
         is_Some (odict.get k (saved_cache o)).
Proof.
  destruct (process_tags_of_total U impl now file tags rules delayed_clean) as [st Hst].
  eexists st, _. split; [exact Hst|].
  split; [by apply apply_tag_rules_Ok|]. simpl. split; [done|].
  intros k Hk Hout.
  assert (is_Some (odict.get k (invalid_tags_cache st))) as Hloop.
  { destruct (process_tags_cache _ _ _ _ _ _ _ _ Hst) as [_ Hc].
    destruct (Hc k) as [->|(n & _ & ->)]; [exact Hk|eauto]. }
  destruct delayed_clean; [|done].
  unfold delete_cache.save_cache. rewrite get_reconcile.
  rewrite decide_False; [done|]. rewrite <- elem_of_fromkeys. by apply Hout.
Qed.

(** X23.  Neither module matches strings of very different lengths: when
    every key of the index is more than 7/3 times longer or shorter than
    the normalized token, [find_best_match] returns [None]. *)
Theorem no_fuzzy_match_outside_the_length_window
    (impl : implementation) (U : Unicode) (tag : pystr) (index : odict.t pystr) :
  (forall k, k ∈ odict.keys index ->
     7 * (length k `min` length (normalize_tag U tag))
     < 3 * (length k `max` length (normalize_tag U tag))) ->
  find_best_match_of impl U tag index = Ok None.
Proof.
  intros Hwin. destruct impl; simpl.
  - unfold first_implementation.find_best_match.
    destruct (best_loop_total (normalize_tag U tag) (odict.keys index) None
                first_implementation.threshold) as [[bm bs] Hloop].
    { intros k Hk. specialize (Hwin k Hk).
      destruct (normalize_tag U tag); [right|by left]. intros ->. simpl in Hwin. lia. }
    rewrite Hloop. simpl.
    apply best_loop_spec in Hloop
      as [(-> & _)|(l1 & k & l2 & Hkeys & -> & Hk & Hlt & _)]; [done|].
    exfalso.
    assert (k ∈ odict.keys index) as Hin.
    { rewrite Hkeys. apply elem_of_app. right. apply list_elem_of_here. }
    specialize (Hwin k Hin).
    pose proof (count_equal_le (normalize_tag U tag) k) as Ha.
    pose proof (count_equal_le_r (normalize_tag U tag) k) as Hb.
    unfold first_implementation.is_tokens_fuzzy_equal, first_implementation.truediv in Hk.
    destruct (_ =? 0)%Z eqn:Hz; [done|]. apply Z.eqb_neq in Hz. simplify_eq.
    unfold Qlt, first_implementation.threshold in Hlt. simpl in Hlt.
    rewrite Z2Pos.id in Hlt by lia. lia.
  - unfold second_implementation.find_best_match.
    destruct (get_close_matches_spec (normalize_tag U tag) (odict.keys index)
                second_implementation.cutoff)
      as [[-> _]|(k & _ & Hk & Hc & _)]; [done|].
    exfalso. specialize (Hwin k Hk).
    unfold difflib.close_enough in Hc.
    apply andb_true_iff in Hc as [Hc _]. apply andb_true_iff in Hc as [Hc _].
    apply Qgeb_spec in Hc. unfold difflib.real_quick_ratio, difflib.calculate_ratio in Hc.
    destruct (length k + length (normalize_tag U tag)) as [|n] eqn:Hn.
    + lia.
    + unfold Qle, second_implementation.cutoff in Hc. simpl Qnum in Hc. simpl Qden in Hc.
      rewrite <- Pos.of_nat_succ in Hc.
      assert (Z.pos (Pos.of_succ_nat n) = Z.of_nat (S n)) as Hpos by done.
      rewrite Hpos, <- Hn in Hc. lia.
Qed.

(** The theorem on a one-letter token and the index of the repository,
    whose keys have three letters at least. *)
Lemma no_fuzzy_match_outside_the_length_window_witness :
  find_best_match_of second latin_cyrillic (py "X") demo_index = Ok None.
Proof.
  apply (no_fuzzy_match_outside_the_length_window second latin_cyrillic (py "X") demo_index).
  intros k Hk.
  assert (Forall (fun k => 7 * (length k `min` 1) < 3 * (length k `max` 1))
                 (odict.keys demo_index)) as HF.
  { apply (bool_decide_unpack _). vm_compute. exact I. }
  rewrite Forall_forall in HF. by apply HF.
Defined.
